(** * search.py: keyword search over a worker pool

    A shallow embedding of [src/search.py]: the Partitioner ([chunkify]), the
    Scanner ([search_keywords_in_files]), the Aggregator ([merge_results]) and
    the two Worker Pool strategies ([run_threading], [run_multiprocessing]).

    Modelling decisions:
    - a Python [dict] / [defaultdict(list)] from keyword to list of paths is a
      [gmap string (list string)]; [d[k].append(x)] on a [defaultdict] creates
      the entry on first access;
    - the file system is a function from path to the outcome of
      [open(...).read()]: the text, an [OSError], or any other exception
      (a decoding failure is one of those);
    - [print] of a per-file failure appends a [diagnostic] to a log;
    - exceptions the modelled fragment could raise ([ValueError] of a zero
      slice step, [IndexError] of a list index) are results of type [res];
    - the interleaving of workers is driven by an explicit schedule, a list of
      numbers consumed one per atomic step; every theorem about a run holds
      for every schedule. *)

From stdpp Require Import base option list gmap strings pretty.
From Stdlib Require Import ZArith Lia.

Open Scope Z_scope.
Open Scope nat_scope.

(** ** Exceptions and results *)

Inductive exn := ValueError | IndexError.

Inductive res (A : Type) :=
  | Ok (a : A)
  | Raise (e : exn)
  | Blocked.
Arguments Ok {A} a.
Arguments Raise {A} e.
Arguments Blocked {A}.

Global Instance res_ret : MRet res := fun _ a => Ok a.

Global Instance res_bind : MBind res := fun _ _ f m =>
  match m with
  | Ok a => f a
  | Raise e => Raise e
  | Blocked => Blocked
  end.

Fixpoint res_foldl {A B} (f : B → A → res B) (acc : B) (l : list A) : res B :=
  match l with
  | [] => Ok acc
  | x :: l' => acc' ← f acc x; res_foldl f acc' l'
  end.

(** ** Strings: [keyword in content] *)

Fixpoint starts_with (kw s : string) : bool :=
  match kw with
  | EmptyString => true
  | String a kw' =>
      match s with
      | EmptyString => false
      | String b s' => if Ascii.eqb a b then starts_with kw' s' else false
      end
  end.

(** [contains kw s] is Python's [kw in s] on text. *)
Fixpoint contains (kw s : string) : bool :=
  if starts_with kw s then true
  else match s with
       | EmptyString => false
       | String _ s' => contains kw s'
       end.

(** ** Dictionaries *)

Abbreviation dict := (gmap string (list string)).

(** What a reader of the mapping sees for a keyword: its list, or nothing. *)
Definition files_of (d : dict) (k : string) : list string := default [] (d !! k).

(** [d[k].extend(paths)] on a [defaultdict(list)]. *)
Definition extend (d : dict) (k : string) (paths : list string) : dict :=
  <[k := files_of d k ++ paths]> d.

(** [d[k].append(path)] on a [defaultdict(list)]. *)
Definition append (d : dict) (k : string) (path : string) : dict :=
  extend d k [path].

(** No keyword is mapped to an empty list: what a [defaultdict(list)] that is
    only ever appended to looks like. *)
Definition dict_wf (d : dict) : Prop := ∀ k, d !! k ≠ Some [].

(** The (keyword, file) pairs held by a mapping. *)
Definition pairs_of (d : dict) : list (string * string) :=
  '(k, l) ← map_to_list d; (fun f => (k, f)) <$> l.

(** ** The Scanner *)

Inductive read_outcome :=
  | Content (text : string)
  | RaisesOSError (e : string)
  | RaisesException (e : string).

Inductive diagnostic :=
  | DiagOSError (file_path e : string)
  | DiagUnexpected (file_path e : string).

(** How many times the iteration over [keywords] yields [k]. *)
Definition occurrences (keywords : list string) (k : string) : nat :=
  length (filter (eq k) keywords).

Section Scanner.
Variable fs : string → read_outcome.

(** Lines 41-43: the loop over the keywords for one file that was read. *)
Definition test_keywords (content file_path : string)
    (keywords : list string) (local_results : dict) : dict :=
  foldl (fun acc keyword =>
           if contains keyword content then append acc keyword file_path
           else acc)
        local_results keywords.

(** Lines 38-47: one iteration of the loop over the files. *)
Definition scan_file (keywords : list string) (file_path : string)
    (local_results : dict) : dict * list diagnostic :=
  match fs file_path with
  | Content content =>
      (test_keywords content file_path keywords local_results, [])
  | RaisesOSError e => (local_results, [DiagOSError file_path e])
  | RaisesException e => (local_results, [DiagUnexpected file_path e])
  end.

(** Lines 37-47 from a given accumulator. *)
Fixpoint scan_loop (keywords : list string) (files : list string)
    (local_results : dict) : dict * list diagnostic :=
  match files with
  | [] => (local_results, [])
  | file_path :: rest =>
      let '(d, out) := scan_file keywords file_path local_results in
      let '(d', out') := scan_loop keywords rest d in
      (d', out ++ out')
  end.

(** Lines 29-57 with [result_queue=None]: the local results and what was
    printed. With a queue the same value is also put on it (line 51); that
    is the delivery step of a process worker below. *)
Definition search_keywords_in_files (files keywords : list string)
    : dict * list diagnostic :=
  scan_loop keywords files ∅.

(** A file matches a keyword when it can be read and its text has it. *)
Definition matches (keyword file_path : string) : bool :=
  match fs file_path with
  | Content content => contains keyword content
  | _ => false
  end.

Definition readable (file_path : string) : Prop :=
  ∃ content, fs file_path = Content content.

(** The paths a scan of [files] appends under [keyword], in order. *)
Definition hits (keywords : list string) (keyword : string)
    (files : list string) : list string :=
  file_path ← files;
  if matches keyword file_path
  then replicate (occurrences keywords keyword) file_path
  else [].

(** Every (keyword, file) pair such that the file can be read and its text
    has the keyword. *)
Definition true_matches (keywords files : list string)
    : list (string * string) :=
  k ← keywords; file_path ← files;
  if matches k file_path then [(k, file_path)] else [].

(** The failure messages a scan of [files] prints, in order. *)
Definition failures (files : list string) : list diagnostic :=
  file_path ← files;
  match fs file_path with
  | Content _ => []
  | RaisesOSError e => [DiagOSError file_path e]
  | RaisesException e => [DiagUnexpected file_path e]
  end.
End Scanner.

(** ** The Aggregator *)

(** Lines 63-64: the loop over the items of one partial result. *)
Definition merge_one (final_dict res : dict) : dict :=
  map_fold (fun key paths acc => extend acc key paths) final_dict res.

(** Lines 59-65. *)
Definition merge_results (results_list : list dict) : dict :=
  foldl merge_one ∅ results_list.

(** ** The Partitioner *)

Definition range (n : Z) : list nat := seq 0 (Z.to_nat n).

(** Elements at positions [skip], [skip + n], [skip + 2 n], ... *)
Fixpoint stride {A} (lst : list A) (skip n : nat) : list A :=
  match lst with
  | [] => []
  | x :: rest =>
      match skip with
      | 0 => x :: stride rest (n - 1) n
      | S skip' => stride rest skip' n
      end
  end.

(** [lst[i::step]] for a start [i ≥ 0]. *)
Definition slice_from_step {A} (lst : list A) (i : nat) (step : Z)
    : res (list A) :=
  match step with
  | Z0 => Raise ValueError
  | Zpos p => Ok (stride lst i (Pos.to_nat p))
  | Zneg p => Ok (stride (rev (take (S i) lst)) 0 (Pos.to_nat p))
  end.

(** Lines 67-69. *)
Definition chunkify {A} (lst : list A) (n : Z) : res (list (list A)) :=
  mapM (fun i => slice_from_step lst i n) (range n).

(** The partitions [chunkify] returns for a positive [n]. *)
Definition chunks_of {A} (lst : list A) (n : nat) : list (list A) :=
  (fun i => stride lst i n) <$> seq 0 n.

(** ** The Worker Pool *)

(** A spawned worker: the index of its partition, the files it has still to
    scan and its [local_results] so far. *)
Record worker := Worker {
  w_id : nat;
  w_todo : list string;
  w_local : dict
}.

(** A result handed over by a worker, tagged with the worker it came from. *)
Abbreviation message := (nat * dict)%type.

(** Lines 86-91 and 116-121: one iteration of the spawning loop. *)
Definition spawn_one (file_chunks : list (list string)) (spawned : list worker)
    (i : nat) : res (list worker) :=
  match file_chunks !! i with
  | None => Raise IndexError
  | Some [] => Ok spawned
  | Some chunk => Ok (spawned ++ [Worker i chunk ∅])
  end.

Definition spawn (file_chunks : list (list string)) (n : Z)
    : res (list worker) :=
  res_foldl (spawn_one file_chunks) [] (range n).

(** The worker the spawning loop starts for partition [i], if any. *)
Definition worker_for (file_chunks : list (list string)) (i : nat)
    : list worker :=
  match file_chunks !! i with
  | Some (file_path :: rest) => [Worker i (file_path :: rest) ∅]
  | _ => []
  end.

(** The workers a run over [files] with [n] workers starts, in spawn order. *)
Definition spawned (files : list string) (n : Z) : list worker :=
  range n ≫= worker_for (chunks_of files (Z.to_nat n)).

(** The schedule picks one of the agents that can move. *)
Definition pick {A} (choice : nat) (l : list A) : option (nat * A) :=
  let i := choice `mod` length l in
  (fun x => (i, x)) <$> l !! i.

(** Steps left before every worker has handed over its result. *)
Definition work (ws : list worker) : nat :=
  sum_list_with (fun w => S (length (w_todo w))) ws.

Section Pool.
Variable fs : string → read_outcome.
Variable keywords : list string.

(** One atomic step of a worker: scan its next file, or hand over. *)
Inductive worker_event :=
  | Scanned (w' : worker) (out : list diagnostic)
  | Finished (m : message).

Definition worker_step (w : worker) : worker_event :=
  match w_todo w with
  | [] => Finished (w_id w, w_local w)
  | file_path :: rest =>
      let '(d, out) := scan_file fs keywords file_path (w_local w) in
      Scanned (Worker (w_id w) rest d) out
  end.

(** What a worker will hand over, and what it will still print. *)
Definition finish (w : worker) : message :=
  (w_id w, (scan_loop fs keywords (w_todo w) (w_local w)).1).

Definition pending (w : worker) : list diagnostic :=
  (scan_loop fs keywords (w_todo w) (w_local w)).2.

(** *** Threads: workers append to the shared list [results] *)

Record tstate := TState {
  t_threads : list worker;
  t_results : list message;
  t_log : list diagnostic
}.

(** What the run will have collected and printed once it is over. *)
Definition t_outcome (st : tstate) : list message :=
  t_results st ++ (finish <$> t_threads st).

Definition t_output (st : tstate) : list diagnostic :=
  t_log st ++ (t_threads st ≫= pending).

Definition thread_step (i : nat) (w : worker) (st : tstate) : tstate :=
  match worker_step w with
  | Scanned w' out =>
      TState (<[i := w']> (t_threads st)) (t_results st) (t_log st ++ out)
  | Finished m =>
      TState (delete i (t_threads st)) (t_results st ++ [m]) (t_log st)
  end.

Fixpoint run_threads (fuel : nat) (sched : list nat) (st : tstate) : tstate :=
  match fuel with
  | 0 => st
  | S fuel' =>
      match pick (hd 0 sched) (t_threads st) with
      | None => st
      | Some (i, w) => run_threads fuel' (tl sched) (thread_step i w st)
      end
  end.

(** Lines 73-100. The joins of lines 93-94 return once no thread is left. *)
Definition run_threading (files : list string) (num_threads : Z)
    (sched : list nat) : res (dict * list diagnostic) :=
  file_chunks ← chunkify files num_threads;
  threads ← spawn file_chunks num_threads;
  let st := run_threads (work threads) sched (TState threads [] []) in
  match t_threads st with
  | [] => Ok (merge_results (t_results st).*2, t_log st)
  | _ => Blocked
  end.

(** *** Processes: workers put on a queue that the coordinator drains *)

Record pstate := PState {
  p_processes : list worker;
  p_queue : list message;
  p_results_list : list message;
  p_gets : nat;
  p_sent : list nat;
  p_log : list diagnostic
}.

Definition p_outcome (st : pstate) : list message :=
  p_results_list st ++ p_queue st ++ (finish <$> p_processes st).

Definition p_output (st : pstate) : list diagnostic :=
  p_log st ++ (p_processes st ≫= pending).

(** Steps left before the coordinator has collected everything. *)
Definition p_measure (st : pstate) : nat :=
  work (p_processes st) + p_gets st.

(** The coordinator still expects one message per message in flight and
    per live process; messages are taken in the order they were sent. *)
Definition p_inv (st : pstate) : Prop :=
  p_gets st = length (p_queue st) + length (p_processes st) ∧
  p_sent st = (p_results_list st ++ p_queue st).*1.

Definition process_step (i : nat) (w : worker) (st : pstate) : pstate :=
  match worker_step w with
  | Scanned w' out =>
      PState (<[i := w']> (p_processes st)) (p_queue st) (p_results_list st)
             (p_gets st) (p_sent st) (p_log st ++ out)
  | Finished m =>
      PState (delete i (p_processes st)) (p_queue st ++ [m])
             (p_results_list st) (p_gets st) (p_sent st ++ [m.1]) (p_log st)
  end.

(** Line 126: [results_list.append(queue.get())]; blocks on an empty queue. *)
Definition coordinator_step (st : pstate) : option pstate :=
  match p_gets st, p_queue st with
  | S gets, m :: queue =>
      Some (PState (p_processes st) queue (p_results_list st ++ [m])
                   gets (p_sent st) (p_log st))
  | _, _ => None
  end.

(** The agents that can move: every live process, and the coordinator when
    it has a message to take. *)
Definition pool_step (choice : nat) (st : pstate) : option pstate :=
  match coordinator_step st with
  | Some st' =>
      let i := choice `mod` S (length (p_processes st)) in
      match p_processes st !! i with
      | Some w => Some (process_step i w st)
      | None => Some st'
      end
  | None =>
      '(i, w) ← pick choice (p_processes st);
      Some (process_step i w st)
  end.

Fixpoint run_processes (fuel : nat) (sched : list nat) (st : pstate) : pstate :=
  match fuel with
  | 0 => st
  | S fuel' =>
      match pool_step (hd 0 sched) st with
      | None => st
      | Some st' => run_processes fuel' (tl sched) st'
      end
  end.

(** What happens in a run of the processes strategy, in order: a process
    puts its result on the queue (line 51), the coordinator takes a message
    (line 126), a join of the coordinator returns (line 129). *)
Inductive event := Put (i : nat) | Get (i : nat) | Join (i : nat).

Definition puts_of (trace : list event) : list nat :=
  omap (fun e => match e with Put i => Some i | _ => None end) trace.

Definition gets_of (trace : list event) : list nat :=
  omap (fun e => match e with Get i => Some i | _ => None end) trace.

Definition joins_of (trace : list event) : list nat :=
  omap (fun e => match e with Join i => Some i | _ => None end) trace.

(** The pool together with the coordinator's second loop: the processes it
    has still to join, in the order of [processes], and what happened. *)
Record mstate := MState {
  m_pool : pstate;
  m_joins : list nat;
  m_trace : list event
}.

Definition worker_events (w : worker) : list event :=
  match worker_step w with
  | Finished m => [Put m.1]
  | Scanned _ _ => []
  end.

Definition process_move (i : nat) (w : worker) (c : mstate) : mstate :=
  MState (process_step i w (m_pool c)) (m_joins c)
         (m_trace c ++ worker_events w).

(** Lines 125-129, the coordinator's next statement: while the first loop
    runs, take a message ([queue.get()] waits on an empty queue, not for the
    processes); once it is over, join the next process ([p.join()] waits
    until that process is gone). *)
Definition coordinator_move (c : mstate) : option mstate :=
  let st := m_pool c in
  match p_gets st with
  | S _ =>
      match p_queue st with
      | m :: _ =>
          (fun st' => MState st' (m_joins c) (m_trace c ++ [Get m.1]))
            <$> coordinator_step st
      | [] => None
      end
  | 0 =>
      match m_joins c with
      | i :: rest =>
          if decide (i ∈ w_id <$> p_processes st) then None
          else Some (MState st rest (m_trace c ++ [Join i]))
      | [] => None
      end
  end.

(** The agents that can move: every live process, and the coordinator when
    its next statement does not wait. *)
Definition system_step (choice : nat) (c : mstate) : option mstate :=
  let processes := p_processes (m_pool c) in
  match coordinator_move c with
  | Some c' =>
      let i := choice `mod` S (length processes) in
      match processes !! i with
      | Some w => Some (process_move i w c)
      | None => Some c'
      end
  | None =>
      '(i, w) ← pick choice processes;
      Some (process_move i w c)
  end.

Fixpoint run_system (fuel : nat) (sched : list nat) (c : mstate) : mstate :=
  match fuel with
  | 0 => c
  | S fuel' =>
      match system_step (hd 0 sched) c with
      | None => c
      | Some c' => run_system fuel' (tl sched) c'
      end
  end.

(** Lines 110-121 done: the processes are started, the queue is empty, the
    coordinator is about to take [len(processes)] messages and then to join
    the processes in order. *)
Definition m_init (processes : list worker) : mstate :=
  MState (PState processes [] [] (length processes) [] [])
         (w_id <$> processes) [].

(** Steps left before the coordinator is through with both loops. *)
Definition m_measure (c : mstate) : nat :=
  p_measure (m_pool c) + length (m_joins c).

(** What holds of the pool and the coordinator throughout a run that
    started [ids]: the pool's own invariant; the trace agrees with the pool on
    what was sent and what was taken; and the trace is a part without joins
    followed by the joins done so far, which are a prefix of [ids] and are
    only there once the first loop is over. *)
Definition m_inv (ids : list nat) (c : mstate) : Prop :=
  p_inv (m_pool c) ∧
  puts_of (m_trace c) = p_sent (m_pool c) ∧
  gets_of (m_trace c) = (p_results_list (m_pool c)).*1 ∧
  ∃ drain joined,
    m_trace c = drain ++ (Join <$> joined) ∧
    joins_of drain = [] ∧
    joined ++ m_joins c = ids ∧
    (joined ≠ [] → p_gets (m_pool c) = 0).

(** Lines 108-135. *)
Definition run_multiprocessing (files : list string) (num_processes : Z)
    (sched : list nat) : res (dict * list diagnostic) :=
  file_chunks ← chunkify files num_processes;
  processes ← spawn file_chunks num_processes;
  let c := run_system (m_measure (m_init processes)) sched (m_init processes) in
  match p_gets (m_pool c), m_joins c with
  | 0, [] => Ok (merge_results (p_results_list (m_pool c)).*2, p_log (m_pool c))
  | _, _ => Blocked
  end.

Inductive strategy := Threads | Processes.

Definition run (s : strategy) (files : list string) (num_workers : Z)
    (sched : list nat) : res (dict * list diagnostic) :=
  match s with
  | Threads => run_threading files num_workers sched
  | Processes => run_multiprocessing files num_workers sched
  end.
End Pool.

Definition fs_demo (p : string) : read_outcome :=
  if String.eqb p "f1.txt" then Content "apple pie"
  else if String.eqb p "f2.txt" then Content "banana split"
  else if String.eqb p "f3.txt" then Content "apple banana"
  else RaisesOSError "No such file or directory".


(** ** Diagnostics, the test corpus and the report *)

(** The path a diagnostic names. *)
Definition diag_path (d : diagnostic) : string :=
  match d with
  | DiagOSError file_path _ => file_path
  | DiagUnexpected file_path _ => file_path
  end.

(** Whether [open(...).read()] of a path gives text. *)
Definition can_read (fs : string → read_outcome) (file_path : string) : bool :=
  match fs file_path with
  | Content _ => true
  | _ => false
  end.

(** Line 15. *)
Definition words : list string :=
  ["apple"; "banana"; "cherry"; "date"; "elderberry"].

(** [sep.join(parts)]. *)
Fixpoint str_join (sep : string) (parts : list string) : string :=
  match parts with
  | [] => ""
  | [part] => part
  | part :: rest => part +:+ sep +:+ str_join sep rest
  end.

Fixpoint ends_with_slash (s : string) : bool :=
  match s with
  | EmptyString => false
  | String _ EmptyString => String.eqb s "/"
  | String _ rest => ends_with_slash rest
  end.

(** [os.path.join(directory, name)] with POSIX separators. *)
Definition path_join (directory name : string) : string :=
  if starts_with "/" name then name
  else if String.eqb directory "" || ends_with_slash directory
       then directory +:+ name
       else directory +:+ "/" +:+ name.

(** Line 20: the name of test file [i]. *)
Definition test_file_name (directory : string) (i : nat) : string :=
  path_join directory ("file_" +:+ pretty i +:+ ".txt").

(** Line 22: the text of test file [i]; both indices are below [len(words)]. *)
Definition test_file_content (i : nat) : string :=
  str_join " " [words !!! (i `mod` length words); "some random text";
                words !!! ((i + 1) `mod` length words)].

(** What an operation on the file system does: it ends or it raises, and
    either way leaves the file system in some state. *)
Inductive io (S A : Type) :=
  | Done (a : A) (st : S)
  | Fails (e : string) (st : S).
Arguments Done {S A} a st.
Arguments Fails {S A} e st.

Section Corpus.
(** The operating system as far as [create_test_files] uses it: the states
    of its file system, [os.path.exists], [os.makedirs], and the writing of a
    text file by [open(filename, 'w')], [write] and the closing of the file. *)
Variable FS : Type.
Variable path_exists : FS → string → bool.
Variable makedirs : FS → string → io FS unit.
Variable write_text : FS → string → string → io FS unit.

(** Lines 19-25: one iteration of the loop that writes the files. *)
Definition create_one (directory : string) (acc : io FS (list string))
    (i : nat) : io FS (list string) :=
  match acc with
  | Fails e st => Fails e st
  | Done file_paths st =>
      let filename := test_file_name directory i in
      match write_text st filename (test_file_content i) with
      | Done _ st' => Done (file_paths ++ [filename]) st'
      | Fails e st' => Fails e st'
      end
  end.

(** Lines 10-27; the progress line of line 18 is left out. *)
Definition create_test_files (directory : string) (num_files : Z) (st : FS)
    : io FS (list string) :=
  let made := if path_exists st directory then Done () st
              else makedirs st directory in
  match made with
  | Fails e st' => Fails e st'
  | Done _ st' => foldl (create_one directory) (Done [] st') (range num_files)
  end.
End Corpus.

(** A file system for the examples: a list of entries, the latest first; a
    path names a directory ([None]) or a text file ([Some content]).
    [os.makedirs] raises for the empty path and for a path that exists;
    nothing can be made or written under "/proc", and a directory is no
    file. *)
Abbreviation demo_fs := (list (string * option string)).

Fixpoint demo_lookup (st : demo_fs) (p : string) : option (option string) :=
  match st with
  | [] => None
  | (q, entry) :: rest => if String.eqb q p then Some entry
                          else demo_lookup rest p
  end.

Definition demo_exists (st : demo_fs) (p : string) : bool :=
  match demo_lookup st p with Some _ => true | None => false end.

Definition demo_makedirs (st : demo_fs) (p : string) : io demo_fs unit :=
  if String.eqb p "" then Fails "FileNotFoundError" st
  else if starts_with "/proc" p then Fails "PermissionError" st
  else if demo_exists st p then Fails "FileExistsError" st
  else Done () ((p, None) :: st).

Definition demo_write (st : demo_fs) (p content : string) : io demo_fs unit :=
  if starts_with "/proc" p then Fails "PermissionError" st
  else match demo_lookup st p with
       | Some None => Fails "IsADirectoryError" st
       | _ => Done () ((p, Some content) :: st)
       end.

Definition demo_read (st : demo_fs) (p : string) : read_outcome :=
  match demo_lookup st p with
  | Some (Some content) => Content content
  | Some None => RaisesOSError "Is a directory"
  | None => RaisesOSError "No such file or directory"
  end.

(** Lines 147-148 and 152-153: a line "Word k found in n files" per entry;
    the order of the lines is the order of the keys in the dictionary, which
    is not modelled. *)
Definition report (r : dict) : list (string * nat) :=
  (fun kv => (kv.1, length kv.2)) <$> map_to_list r.

(** * Properties *)

(** ** Substring containment *)

Lemma append_cons a s t : String a s +:+ t = String a (s +:+ t).
Proof. reflexivity. Qed.

Lemma append_empty t : "" +:+ t = t.
Proof. reflexivity. Qed.

Lemma starts_with_spec kw s :
  starts_with kw s = true ↔ ∃ post, s = kw +:+ post.
Proof.
  revert s. induction kw as [|a kw IH]; intros s; simpl.
  - split; [intros _; by exists s | done].
  - destruct s as [|b s].
    + split; [done | intros [post Hp]; discriminate].
    + destruct (Ascii.eqb_spec a b) as [->|Hne].
      * rewrite IH. split; intros [post Hp]; exists post;
          rewrite append_cons in *; congruence.
      * split; [done | intros [post Hp]; rewrite append_cons in Hp; congruence].
Qed.

Lemma contains_spec kw s :
  contains kw s = true ↔ ∃ pre post, s = pre +:+ kw +:+ post.
Proof.
  induction s as [|b s IH]; simpl.
  - destruct (starts_with kw "") eqn:Hsw.
    + apply starts_with_spec in Hsw as [post Hp].
      split; [intros _; by exists "", post | done].
    + split; [done |]. intros ([|c pre] & post & Hp); [|discriminate].
      assert (starts_with kw "" = true) as Hs; [|congruence].
      apply starts_with_spec. by exists post.
  - destruct (starts_with kw (String b s)) eqn:Hsw.
    + apply starts_with_spec in Hsw as [post Hp].
      split; [intros _; by exists "", post | done].
    + rewrite IH. split.
      * intros (pre & post & ->). by exists (String b pre), post.
      * intros ([|c pre] & post & Hp).
        -- assert (starts_with kw (String b s) = true) as Hs; [|congruence].
           apply starts_with_spec. by exists post.
        -- exists pre, post. rewrite append_cons in Hp. congruence.
Qed.

(** ** Dictionaries *)

Lemma lookup_extend d k paths k' :
  extend d k paths !! k' =
  if decide (k = k') then Some (files_of d k ++ paths) else d !! k'.
Proof. unfold extend. by rewrite lookup_insert. Qed.

Lemma files_of_extend d k paths k' :
  files_of (extend d k paths) k' =
  if decide (k = k') then files_of d k ++ paths else files_of d k'.
Proof. unfold files_of at 1. rewrite lookup_extend. by case_decide. Qed.

Lemma files_of_empty k : files_of ∅ k = [].
Proof. unfold files_of. by rewrite lookup_empty. Qed.

Lemma dict_wf_empty : dict_wf ∅.
Proof. intros k. by rewrite lookup_empty. Qed.

Lemma dict_wf_extend d k paths :
  dict_wf d → paths ≠ [] → dict_wf (extend d k paths).
Proof.
  intros Hwf Hne k'. rewrite lookup_extend. case_decide; [|apply Hwf].
  intros [= Happ]. by apply app_eq_nil in Happ as [_ ?].
Qed.

Lemma dict_wf_lookup_None d k : dict_wf d → d !! k = None ↔ files_of d k = [].
Proof.
  intros Hwf. unfold files_of. specialize (Hwf k).
  destruct (d !! k) as [l|]; simpl; [|done]. split; [done | congruence].
Qed.

Lemma dict_wf_lookup_Some d k l :
  dict_wf d → d !! k = Some l ↔ files_of d k = l ∧ l ≠ [].
Proof.
  intros Hwf. unfold files_of. specialize (Hwf k).
  destruct (d !! k) as [l'|]; simpl; split.
  - intros [= ->]. split; [done | congruence].
  - by intros [-> _].
  - done.
  - intros [<- ?]. done.
Qed.

(** Two such mappings with the same lists are the same mapping. *)
Lemma dict_wf_eq d1 d2 :
  dict_wf d1 → dict_wf d2 → (∀ k, files_of d1 k = files_of d2 k) → d1 = d2.
Proof.
  intros Hwf1 Hwf2 Heq. apply map_eq. intros k.
  destruct (d1 !! k) as [l|] eqn:H1.
  - apply (dict_wf_lookup_Some _ _ _ Hwf1) in H1 as [H1 Hne].
    symmetry. apply dict_wf_lookup_Some; [done|]. by rewrite <-Heq.
  - apply (dict_wf_lookup_None _ _ Hwf1) in H1.
    symmetry. apply dict_wf_lookup_None; [done|]. by rewrite <-Heq.
Qed.

(** ** The Scanner *)

Section ScannerFacts.
Variable fs : string → read_outcome.
Implicit Types (keywords files : list string) (d : dict).

Lemma occurrences_NoDup keywords k :
  NoDup keywords → occurrences keywords k = if decide (k ∈ keywords) then 1 else 0.
Proof.
  unfold occurrences. induction 1 as [|x l Hx Hl IH].
  - by rewrite decide_False by apply not_elem_of_nil.
  - rewrite filter_cons. destruct (decide (k = x)) as [->|Hne].
    + rewrite decide_True by apply list_elem_of_here. simpl.
      rewrite IH. by rewrite decide_False.
    + rewrite IH. destruct (decide (k ∈ l)) as [Hin|Hin].
      * rewrite decide_True; [done | by apply elem_of_cons; right].
      * rewrite decide_False; [done|]. rewrite elem_of_cons. tauto.
Qed.

Lemma files_of_test_keywords content file_path keywords d k :
  files_of (test_keywords content file_path keywords d) k =
  files_of d k ++
    (if contains k content
     then replicate (occurrences keywords k) file_path else []).
Proof.
  unfold test_keywords, occurrences.
  revert d. induction keywords as [|kw kws IH]; intros d; simpl.
  - destruct (contains k content); by rewrite app_nil_r.
  - rewrite IH, filter_cons. clear IH.
    destruct (decide (k = kw)) as [<-|Hne].
    + destruct (contains k content); [|done].
      unfold append. rewrite files_of_extend, decide_True by done.
      by rewrite <-app_assoc.
    + destruct (contains kw content); [|done].
      unfold append. by rewrite files_of_extend, decide_False by done.
Qed.

Lemma dict_wf_test_keywords content file_path keywords d :
  dict_wf d → dict_wf (test_keywords content file_path keywords d).
Proof.
  unfold test_keywords.
  revert d. induction keywords as [|kw kws IH]; intros d Hwf; simpl; [done|].
  apply IH. destruct (contains kw content); [|done].
  by apply dict_wf_extend.
Qed.

Lemma scan_loop_cons keywords file_path files d :
  scan_loop fs keywords (file_path :: files) d =
  ((scan_loop fs keywords files (scan_file fs keywords file_path d).1).1,
   (scan_file fs keywords file_path d).2 ++
   (scan_loop fs keywords files (scan_file fs keywords file_path d).1).2).
Proof.
  simpl. destruct (scan_file fs keywords file_path d) as [d1 out1]; simpl.
  by destruct (scan_loop fs keywords files d1).
Qed.

Lemma files_of_scan_file keywords file_path d k :
  files_of (scan_file fs keywords file_path d).1 k =
  files_of d k ++ hits fs keywords k [file_path].
Proof.
  unfold scan_file, hits, matches. simpl. rewrite app_nil_r.
  destruct (fs file_path); simpl; rewrite ?app_nil_r; [|done..].
  apply files_of_test_keywords.
Qed.

Lemma scan_file_log keywords file_path d :
  (scan_file fs keywords file_path d).2 = failures fs [file_path].
Proof.
  unfold scan_file, failures. simpl. by destruct (fs file_path).
Qed.

Lemma dict_wf_scan_file keywords file_path d :
  dict_wf d → dict_wf (scan_file fs keywords file_path d).1.
Proof.
  intros Hwf. unfold scan_file. destruct (fs file_path); simpl; [|done..].
  by apply dict_wf_test_keywords.
Qed.

Lemma hits_cons keywords k file_path files :
  hits fs keywords k (file_path :: files) =
  hits fs keywords k [file_path] ++ hits fs keywords k files.
Proof. unfold hits. simpl. by rewrite app_nil_r. Qed.

Lemma hits_singleton keywords k file_path :
  hits fs keywords k [file_path] =
  if matches fs k file_path
  then replicate (occurrences keywords k) file_path else [].
Proof. unfold hits. rewrite bind_cons. apply app_nil_r. Qed.

Lemma hits_app keywords k files1 files2 :
  hits fs keywords k (files1 ++ files2) =
  hits fs keywords k files1 ++ hits fs keywords k files2.
Proof. unfold hits. apply bind_app. Qed.

Lemma failures_cons file_path files :
  failures fs (file_path :: files) =
  failures fs [file_path] ++ failures fs files.
Proof. unfold failures. simpl. by rewrite app_nil_r. Qed.

Lemma files_of_scan_loop keywords files d k :
  files_of (scan_loop fs keywords files d).1 k =
  files_of d k ++ hits fs keywords k files.
Proof.
  revert d. induction files as [|f files IH]; intros d.
  - simpl. by rewrite app_nil_r.
  - rewrite scan_loop_cons, hits_cons. simpl.
    by rewrite IH, files_of_scan_file, app_assoc.
Qed.

Lemma scan_loop_log keywords files d :
  (scan_loop fs keywords files d).2 = failures fs files.
Proof.
  revert d. induction files as [|f files IH]; intros d; [done|].
  rewrite scan_loop_cons, failures_cons. simpl.
  by rewrite IH, scan_file_log.
Qed.

Lemma dict_wf_scan_loop keywords files d :
  dict_wf d → dict_wf (scan_loop fs keywords files d).1.
Proof.
  revert d. induction files as [|f files IH]; intros d Hwf; [done|].
  rewrite scan_loop_cons. simpl. by apply IH, dict_wf_scan_file.
Qed.

(** With a keyword set, the hits of a keyword are the matching files. *)
Lemma hits_NoDup keywords k files :
  NoDup keywords →
  hits fs keywords k files =
  if decide (k ∈ keywords) then filter (fun f => matches fs k f = true) files
  else [].
Proof.
  intros Hnd. induction files as [|f files IH].
  - by case_decide.
  - rewrite hits_cons, IH. unfold hits at 1. simpl. rewrite app_nil_r.
    rewrite occurrences_NoDup by done.
    rewrite filter_cons.
    destruct (matches fs k f); repeat case_decide; try done.
Qed.
End ScannerFacts.

(** ** The Aggregator *)

Lemma lookup_merge_one (final_dict res : dict) k :
  merge_one final_dict res !! k =
  match res !! k with
  | Some paths => Some (files_of final_dict k ++ paths)
  | None => final_dict !! k
  end.
Proof.
  unfold merge_one. revert k.
  apply (map_fold_weak_ind (fun (acc m : dict) => ∀ k,
    acc !! k = match m !! k with
               | Some paths => Some (files_of final_dict k ++ paths)
               | None => final_dict !! k
               end)).
  - intros k. by rewrite lookup_empty.
  - intros i paths m acc Hi IH k.
    rewrite lookup_extend, lookup_insert.
    case_decide as Hk; [subst k | apply IH].
    unfold files_of at 1. by rewrite IH, Hi.
Qed.

Lemma files_of_merge_one (final_dict res : dict) k :
  files_of (merge_one final_dict res) k = files_of final_dict k ++ files_of res k.
Proof.
  unfold files_of at 1 3. rewrite lookup_merge_one.
  destruct (res !! k); simpl; [done|]. by rewrite app_nil_r.
Qed.

Lemma merge_one_is_Some (final_dict res : dict) k :
  is_Some (merge_one final_dict res !! k) ↔
  is_Some (final_dict !! k) ∨ is_Some (res !! k).
Proof.
  rewrite lookup_merge_one. destruct (res !! k) as [l|].
  - split; [intros _; right; eauto | eauto].
  - split; [by left | intros [?|[? [=]]]; done].
Qed.

Lemma dict_wf_merge_one (final_dict res : dict) :
  dict_wf final_dict → dict_wf res → dict_wf (merge_one final_dict res).
Proof.
  intros Hf Hr k. rewrite lookup_merge_one.
  destruct (res !! k) as [l|] eqn:Hl; [|apply Hf].
  intros [= Happ]. apply app_eq_nil in Happ as [_ ->]. by apply (Hr k).
Qed.

Lemma files_of_merge_from (final_dict : dict) (results_list : list dict) k :
  files_of (foldl merge_one final_dict results_list) k =
  files_of final_dict k ++ concat ((fun res => files_of res k) <$> results_list).
Proof.
  revert final_dict.
  induction results_list as [|res rs IH]; intros final_dict; simpl.
  - by rewrite app_nil_r.
  - by rewrite IH, files_of_merge_one, app_assoc.
Qed.

Lemma files_of_merge_results (results_list : list dict) k :
  files_of (merge_results results_list) k =
  concat ((fun res => files_of res k) <$> results_list).
Proof.
  unfold merge_results. by rewrite files_of_merge_from, files_of_empty.
Qed.

Lemma merge_from_is_Some (final_dict : dict) (results_list : list dict) k :
  is_Some (foldl merge_one final_dict results_list !! k) ↔
  is_Some (final_dict !! k) ∨ ∃ res, res ∈ results_list ∧ is_Some (res !! k).
Proof.
  revert final_dict.
  induction results_list as [|res rs IH]; intros final_dict; simpl.
  - split; [by left | intros [?|(? & []%elem_of_nil & _)]; done].
  - rewrite IH, merge_one_is_Some. split.
    + intros [[?|?]|(r & Hr & ?)]; [by left | right; exists res | right; exists r].
      * split; [apply list_elem_of_here | done].
      * split; [by apply elem_of_cons; right | done].
    + intros [?|(r & [->|Hr]%elem_of_cons & ?)]; [by left; left | by left; right |].
      right. by exists r.
Qed.

Lemma merge_results_is_Some (results_list : list dict) k :
  is_Some (merge_results results_list !! k) ↔
  ∃ res, res ∈ results_list ∧ is_Some (res !! k).
Proof.
  unfold merge_results. rewrite merge_from_is_Some, lookup_empty.
  split; [intros [[? [=]]|?]; done | by right].
Qed.

Lemma dict_wf_merge_from (final_dict : dict) (results_list : list dict) :
  dict_wf final_dict → Forall dict_wf results_list →
  dict_wf (foldl merge_one final_dict results_list).
Proof.
  intros Hf Hrs. revert final_dict Hf.
  induction Hrs as [|res rs Hr Hrs IH]; intros final_dict Hf; simpl; [done|].
  by apply IH, dict_wf_merge_one.
Qed.

Lemma dict_wf_merge_results (results_list : list dict) :
  Forall dict_wf results_list → dict_wf (merge_results results_list).
Proof. apply dict_wf_merge_from, dict_wf_empty. Qed.

Lemma merge_results_snoc (results_list : list dict) (res : dict) :
  merge_results (results_list ++ [res]) =
  merge_one (merge_results results_list) res.
Proof. unfold merge_results. by rewrite foldl_app. Qed.

Lemma merge_results_perm (rs1 rs2 : list dict) k :
  rs1 ≡ₚ rs2 →
  files_of (merge_results rs1) k ≡ₚ files_of (merge_results rs2) k.
Proof. intros Hp. rewrite !files_of_merge_results. by rewrite Hp. Qed.

(** ** The Partitioner *)

Section PartitionerFacts.
Context {A : Type}.
Implicit Types (lst : list A) (i k n : nat).

Lemma lookup_stride lst i n k :
  1 ≤ n → stride lst i n !! k = lst !! (i + k * n).
Proof.
  intros Hn. revert i k. induction lst as [|x rest IH]; intros i k; [done|].
  destruct i as [|i]; simpl.
  - destruct k as [|k]; [done|]. simpl. rewrite IH.
    replace (n + k * n) with (S (n - 1 + k * n)) by lia. done.
  - apply IH.
Qed.

Lemma stride_sublist lst i n : stride lst i n `sublist_of` lst.
Proof.
  revert i. induction lst as [|x rest IH]; intros i; [done|].
  destruct i as [|i]; simpl.
  - by apply sublist_skip.
  - by apply sublist_cons.
Qed.

Lemma stride_nil i n : stride (@nil A) i n = [].
Proof. done. Qed.

Lemma length_chunks_of lst n : length (chunks_of lst n) = n.
Proof. unfold chunks_of. by rewrite length_fmap, length_seq. Qed.

Lemma lookup_chunks_of lst n j :
  j < n → chunks_of lst n !! j = Some (stride lst j n).
Proof.
  intros Hj. unfold chunks_of. rewrite list_lookup_fmap.
  by rewrite lookup_seq_lt.
Qed.

Lemma lookup_chunks_of_Some lst n j c :
  chunks_of lst n !! j = Some c ↔ j < n ∧ c = stride lst j n.
Proof.
  split.
  - intros Hc. assert (j < n) as Hj.
    { apply lookup_lt_Some in Hc. by rewrite length_chunks_of in Hc. }
    rewrite lookup_chunks_of in Hc by done. split; [done | congruence].
  - intros [Hj ->]. by apply lookup_chunks_of.
Qed.

Lemma chunks_of_cons x lst n :
  1 ≤ n →
  chunks_of (x :: lst) n =
  (x :: stride lst (n - 1) n) :: ((fun i => stride lst i n) <$> seq 0 (n - 1)).
Proof.
  intros Hn. unfold chunks_of. destruct n as [|n]; [lia|].
  rewrite <-cons_seq, <-fmap_S_seq. simpl. rewrite Nat.sub_0_r.
  f_equal. by rewrite <-list_fmap_compose.
Qed.

Lemma chunks_of_snoc lst n :
  1 ≤ n →
  chunks_of lst n =
  ((fun i => stride lst i n) <$> seq 0 (n - 1)) ++ [stride lst (n - 1) n].
Proof.
  intros Hn. unfold chunks_of. destruct n as [|n]; [lia|].
  rewrite seq_S, fmap_app. simpl. by rewrite Nat.sub_0_r.
Qed.

(** The partitions together hold the input, each entry once. *)
Lemma concat_chunks_of lst n : 1 ≤ n → concat (chunks_of lst n) ≡ₚ lst.
Proof.
  intros Hn. induction lst as [|x lst IH].
  - unfold chunks_of. generalize (seq 0 n). intros l.
    by induction l as [|? ? IHl].
  - rewrite chunks_of_cons by done. simpl. constructor.
    rewrite <-IH at 2. rewrite (chunks_of_snoc lst) by done.
    rewrite concat_app. simpl. rewrite app_nil_r.
    apply Permutation_app_comm.
Qed.

Lemma mapM_Ok {B C} (g : B → C) (l : list B) :
  mapM (fun b => Ok (g b)) l = Ok (g <$> l).
Proof. induction l as [|b l IH]; [done|]. simpl. by rewrite IH. Qed.

Lemma chunkify_pos lst (n : Z) :
  (1 ≤ n)%Z → chunkify lst n = Ok (chunks_of lst (Z.to_nat n)).
Proof.
  intros Hn. unfold chunkify, chunks_of, range.
  destruct n as [|p|p]; [lia| |lia]. simpl slice_from_step.
  rewrite mapM_Ok. by rewrite Z2Nat.inj_pos.
Qed.

Lemma chunkify_nonpos lst (n : Z) : (n < 1)%Z → chunkify lst n = Ok [].
Proof.
  intros Hn. unfold chunkify, range.
  replace (Z.to_nat n) with 0 by lia. done.
Qed.
End PartitionerFacts.

Lemma chunkify_Ok {A} (lst : list A) (n : Z) :
  chunkify lst n = Ok (chunks_of lst (Z.to_nat n)).
Proof.
  destruct (decide (1 ≤ n)%Z); [by apply chunkify_pos|].
  rewrite chunkify_nonpos by lia. by replace (Z.to_nat n) with 0 by lia.
Qed.

(** ** Spawning *)

Lemma res_bind_Ok {A B} (f : A → res B) (a : A) : Ok a ≫= f = f a.
Proof. reflexivity. Qed.

Lemma res_foldl_cons {A B} (f : B → A → res B) (acc : B) (x : A) (l : list A) :
  res_foldl f acc (x :: l) = f acc x ≫= fun acc' => res_foldl f acc' l.
Proof. reflexivity. Qed.

Lemma spawn_one_Ok (file_chunks : list (list string)) (spawned : list worker) i :
  i < length file_chunks →
  spawn_one file_chunks spawned i = Ok (spawned ++ worker_for file_chunks i).
Proof.
  intros [c Hc]%lookup_lt_is_Some. unfold spawn_one, worker_for. rewrite Hc.
  destruct c; [|done]. by rewrite app_nil_r.
Qed.

Lemma res_foldl_spawn (file_chunks : list (list string)) (l : list nat)
    (spawned : list worker) :
  Forall (fun i => i < length file_chunks) l →
  res_foldl (spawn_one file_chunks) spawned l =
  Ok (spawned ++ (l ≫= worker_for file_chunks)).
Proof.
  intros Hl. revert spawned.
  induction Hl as [|i l Hi Hl IH]; intros spawned.
  - simpl. by rewrite app_nil_r.
  - rewrite res_foldl_cons, bind_cons, spawn_one_Ok by done.
    by rewrite res_bind_Ok, IH, <-app_assoc.
Qed.

Lemma spawn_Ok (file_chunks : list (list string)) (n : Z) :
  Z.to_nat n ≤ length file_chunks →
  spawn file_chunks n = Ok (range n ≫= worker_for file_chunks).
Proof.
  intros Hn. unfold spawn. rewrite res_foldl_spawn; [done|].
  apply Forall_forall. intros i Hi%elem_of_seq. lia.
Qed.

Lemma worker_for_app_l (chunks1 chunks2 : list (list string)) i :
  i < length chunks1 →
  worker_for (chunks1 ++ chunks2) i = worker_for chunks1 i.
Proof. intros Hi. unfold worker_for. by rewrite lookup_app_l. Qed.

Lemma bind_ext_in {A B} (f g : A → list B) (l : list A) :
  (∀ x, x ∈ l → f x = g x) → l ≫= f = l ≫= g.
Proof.
  induction l as [|x l IH]; intros Hfg; [done|].
  rewrite !bind_cons, IH, Hfg; [done | apply list_elem_of_here |].
  intros y Hy. apply Hfg. by apply elem_of_cons; right.
Qed.

Lemma spawned_todo (file_chunks : list (list string)) :
  w_todo <$> (seq 0 (length file_chunks) ≫= worker_for file_chunks) =
  filter (fun c => c ≠ []) file_chunks.
Proof.
  induction file_chunks as [|c chunks IH] using rev_ind; [done|].
  replace (length (chunks ++ [c])) with (S (length chunks))
    by (rewrite length_app; simpl; lia).
  rewrite seq_S, bind_app, fmap_app.
  rewrite filter_app, <-IH. f_equal.
  - f_equal. apply bind_ext_in. intros i Hi%elem_of_seq.
    apply worker_for_app_l. lia.
  - simpl. unfold worker_for. rewrite list_lookup_middle by done.
    rewrite app_nil_r. by destruct c.
Qed.

(** ** Running the pool *)

Lemma pick_Some {A} (choice : nat) (l : list A) i x :
  pick choice l = Some (i, x) → l !! i = Some x.
Proof.
  unfold pick. destruct (l !! (choice `mod` length l)) eqn:Hl; [|done].
  simpl. by intros [= <- <-].
Qed.

Lemma pick_None {A} (choice : nat) (l : list A) : pick choice l = None → l = [].
Proof.
  unfold pick. destruct l as [|x l]; [done|].
  destruct ((x :: l) !! (choice `mod` length (x :: l))) eqn:Hl; [done|].
  apply lookup_ge_None in Hl.
  pose proof (Nat.mod_upper_bound choice (length (x :: l))) as Hlt.
  simpl in *. lia.
Qed.

(** A list seen around one of its positions. *)
Lemma list_around {A} (l : list A) i x :
  l !! i = Some x →
  ∃ l1 l2, l = l1 ++ x :: l2 ∧ (∀ y, <[i := y]> l = l1 ++ y :: l2) ∧
           delete i l = l1 ++ l2.
Proof.
  intros Hi. exists (take i l), (drop (S i) l). split_and!.
  - by rewrite take_drop_middle.
  - intros y. apply insert_take_drop. by eapply lookup_lt_Some.
  - apply delete_take_drop.
Qed.

Lemma work_0 ws : work ws = 0 → ws = [].
Proof. destruct ws; [done|]. unfold work. simpl. lia. Qed.

Section PoolFacts.
Variable fs : string → read_outcome.
Variable keywords : list string.

Local Abbreviation finish := (finish fs keywords).
Local Abbreviation pending := (pending fs keywords).
Local Abbreviation worker_step := (worker_step fs keywords).
Local Abbreviation t_outcome := (t_outcome fs keywords).
Local Abbreviation t_output := (t_output fs keywords).
Local Abbreviation p_outcome := (p_outcome fs keywords).
Local Abbreviation p_output := (p_output fs keywords).

Lemma worker_step_scanned w w' out :
  worker_step w = Scanned w' out →
  finish w' = finish w ∧ out ++ pending w' = pending w ∧
  S (length (w_todo w')) = length (w_todo w).
Proof.
  unfold worker_step, finish, pending. destruct w as [id todo d]. simpl.
  destruct todo as [|f rest]; [done|].
  rewrite scan_loop_cons.
  destruct (scan_file fs keywords f d) as [d1 out1]. simpl.
  by intros [= <- <-].
Qed.

Lemma worker_step_finished w m :
  worker_step w = Finished m →
  m = finish w ∧ pending w = [] ∧ w_todo w = [].
Proof.
  unfold worker_step, finish, pending. destruct w as [id todo d]. simpl.
  destruct todo as [|f rest].
  - by intros [= <-].
  - by destruct (scan_file fs keywords f d).
Qed.

(** *** Threads *)

Lemma thread_step_preserves i w st :
  t_threads st !! i = Some w →
  let st' := thread_step fs keywords i w st in
  S (work (t_threads st')) = work (t_threads st) ∧
  t_outcome st' ≡ₚ t_outcome st ∧
  t_output st' ≡ₚ t_output st.
Proof.
  intros Hi. destruct (list_around _ _ _ Hi) as (l1 & l2 & Hl & Hins & Hdel).
  unfold thread_step, t_outcome, t_output, work.
  destruct (worker_step w) as [w' out|m] eqn:Hstep; simpl.
  - apply worker_step_scanned in Hstep as (Hf & Hp & Hlen).
    rewrite Hins, Hl, !fmap_app, !fmap_cons, !bind_app, !bind_cons.
    rewrite !sum_list_with_app. simpl. rewrite Hf, <-Hp, <-Hlen.
    split_and!; [lia | done |].
    rewrite !app_assoc. do 2 f_equiv.
    rewrite <-!app_assoc. f_equiv. apply Permutation_app_comm.
  - apply worker_step_finished in Hstep as (-> & Hp & Hlen).
    rewrite Hdel, Hl, !fmap_app, !fmap_cons, !bind_app, !bind_cons.
    rewrite !sum_list_with_app. simpl. rewrite Hp, Hlen.
    split_and!; [simpl; lia | | done].
    rewrite <-!app_assoc. f_equiv. simpl.
    by rewrite Permutation_middle.
Qed.

Lemma run_threads_complete fuel sched st :
  work (t_threads st) = fuel →
  let st' := run_threads fs keywords fuel sched st in
  t_threads st' = [] ∧
  t_results st' ≡ₚ t_outcome st ∧
  t_log st' ≡ₚ t_output st.
Proof.
  revert sched st. induction fuel as [|fuel IH]; intros sched st Hw; simpl.
  - apply work_0 in Hw. unfold t_outcome, t_output. rewrite Hw. simpl.
    by rewrite !app_nil_r.
  - destruct (pick (hd 0 sched) (t_threads st)) as [[i w]|] eqn:Hpick.
    + apply pick_Some in Hpick.
      destruct (thread_step_preserves i w st Hpick) as (Hwork & Hout & Hlog).
      destruct (IH (tl sched) (thread_step fs keywords i w st)) as (H1 & H2 & H3).
      { lia. }
      split_and!; [done | by rewrite H2 | by rewrite H3].
    + apply pick_None in Hpick. rewrite Hpick in Hw. done.
Qed.

(** *** Processes *)

Lemma process_step_preserves i w st :
  p_processes st !! i = Some w → p_inv st →
  let st' := process_step fs keywords i w st in
  p_inv st' ∧ S (p_measure st') = p_measure st ∧
  p_outcome st' ≡ₚ p_outcome st ∧ p_output st' ≡ₚ p_output st.
Proof.
  intros Hi [Hgets Hsent].
  destruct (list_around _ _ _ Hi) as (l1 & l2 & Hl & Hins & Hdel).
  unfold process_step, p_inv, p_measure, p_outcome, p_output, work.
  destruct (worker_step w) as [w' out|m] eqn:Hstep; simpl.
  - apply worker_step_scanned in Hstep as (Hf & Hp & Hlen).
    rewrite Hgets, Hsent, Hins, Hl, !fmap_app, !fmap_cons, !bind_app, !bind_cons.
    rewrite !length_app, !sum_list_with_app. simpl. rewrite Hf, <-Hp, <-Hlen.
    split_and!; [done | done | lia | done |].
    rewrite !app_assoc. do 2 f_equiv.
    rewrite <-!app_assoc. f_equiv. apply Permutation_app_comm.
  - apply worker_step_finished in Hstep as (-> & Hp & Hlen).
    rewrite Hgets, Hsent, Hdel, Hl, !fmap_app, !fmap_cons, !bind_app, !bind_cons.
    rewrite !length_app, !sum_list_with_app. simpl. rewrite Hp, Hlen.
    split_and!; [lia | by rewrite <-app_assoc | simpl; lia | | done].
    rewrite <-!app_assoc. do 2 f_equiv. simpl.
    by rewrite Permutation_middle.
Qed.

Lemma coordinator_step_preserves st st' :
  coordinator_step st = Some st' → p_inv st →
  p_inv st' ∧ S (p_measure st') = p_measure st ∧
  p_outcome st' = p_outcome st ∧ p_output st' = p_output st.
Proof.
  unfold coordinator_step, p_inv, p_measure, p_outcome, p_output.
  destruct st as [ps q rs gets sent log]. simpl.
  destruct gets as [|gets]; [done|]. destruct q as [|m q]; [done|].
  intros [= <-] [Hgets Hsent]. simpl in *.
  rewrite <-!app_assoc. simpl. split_and!; [lia | done | lia | done | done].
Qed.

Lemma pool_step_preserves choice st st' :
  pool_step fs keywords choice st = Some st' → p_inv st →
  p_inv st' ∧ S (p_measure st') = p_measure st ∧
  p_outcome st' ≡ₚ p_outcome st ∧ p_output st' ≡ₚ p_output st.
Proof.
  unfold pool_step. intros Hstep Hinv.
  destruct (coordinator_step st) as [st1|] eqn:Hco.
  - destruct (p_processes st !! _) as [w|] eqn:Hw.
    + injection Hstep as <-. by apply process_step_preserves.
    + injection Hstep as <-.
      destruct (coordinator_step_preserves _ _ Hco Hinv) as (? & ? & -> & ->).
      done.
  - destruct (pick choice (p_processes st)) as [[i w]|] eqn:Hpick; [|done].
    injection Hstep as <-. apply pick_Some in Hpick.
    by apply process_step_preserves.
Qed.

(** The pool never blocks with work left: a coordinator that waits has a
    live process to wait for. *)
Lemma pool_step_None choice st :
  pool_step fs keywords choice st = None → p_inv st → p_measure st = 0.
Proof.
  unfold pool_step, coordinator_step, p_inv, p_measure.
  destruct st as [ps q rs gets sent log]. simpl. intros Hstep [Hgets Hsent].
  destruct gets as [|gets], q as [|m q]; simpl in *;
    try (destruct (ps !! _); done);
    destruct (pick choice ps) as [[i w]|] eqn:Hpick; try done;
    apply pick_None in Hpick; subst ps; simpl in *; lia.
Qed.

Lemma p_measure_0 st :
  p_inv st → p_measure st = 0 →
  p_processes st = [] ∧ p_gets st = 0 ∧ p_queue st = [].
Proof.
  unfold p_inv, p_measure. intros [Hgets Hsent] Hm.
  assert (work (p_processes st) = 0) as Hw%work_0 by lia.
  rewrite Hw in *. simpl in *.
  split_and!; [done | lia |]. apply length_zero_iff_nil. lia.
Qed.

Lemma run_processes_complete fuel sched st :
  p_inv st → p_measure st = fuel →
  let st' := run_processes fs keywords fuel sched st in
  p_processes st' = [] ∧ p_gets st' = 0 ∧ p_queue st' = [] ∧
  p_sent st' = (p_results_list st').*1 ∧
  p_results_list st' ≡ₚ p_outcome st ∧
  p_log st' ≡ₚ p_output st.
Proof.
  revert sched st. induction fuel as [|fuel IH]; intros sched st Hinv Hm; simpl.
  - destruct (p_measure_0 st Hinv Hm) as (Hps & Hg & Hq).
    destruct Hinv as [_ Hsent].
    unfold p_outcome, p_output. rewrite Hps, Hq in *. simpl.
    rewrite !app_nil_r in *. done.
  - destruct (pool_step fs keywords (hd 0 sched) st) as [st1|] eqn:Hstep.
    + destruct (pool_step_preserves _ _ _ Hstep Hinv) as (Hinv1 & Hm1 & Ho & Hl).
      destruct (IH (tl sched) st1 Hinv1) as (H1 & H2 & H3 & H4 & H5 & H6).
      { lia. }
      split_and!; [done | done | done | done | by rewrite H5 | by rewrite H6].
    + apply pool_step_None in Hstep; [|done]. lia.
Qed.
End PoolFacts.

(** ** The processes strategy with its coordinator *)

Lemma puts_of_app t1 t2 : puts_of (t1 ++ t2) = puts_of t1 ++ puts_of t2.
Proof. apply omap_app. Qed.

Lemma gets_of_app t1 t2 : gets_of (t1 ++ t2) = gets_of t1 ++ gets_of t2.
Proof. apply omap_app. Qed.

Lemma joins_of_app t1 t2 : joins_of (t1 ++ t2) = joins_of t1 ++ joins_of t2.
Proof. apply omap_app. Qed.

Lemma trace_of_joins (l : list nat) :
  puts_of (Join <$> l) = [] ∧ gets_of (Join <$> l) = [] ∧
  joins_of (Join <$> l) = l.
Proof.
  induction l as [|i l (IH1 & IH2 & IH3)]; [done|].
  split_and!; [done | done |].
  change (joins_of (Join <$> i :: l)) with (i :: joins_of (Join <$> l)).
  by rewrite IH3.
Qed.

Section SystemFacts.
Variable fs : string → read_outcome.
Variable keywords : list string.

Local Abbreviation system_step := (system_step fs keywords).
Local Abbreviation run_system := (run_system fs keywords).
Local Abbreviation process_move := (process_move fs keywords).
Local Abbreviation p_outcome := (p_outcome fs keywords).
Local Abbreviation p_output := (p_output fs keywords).

Lemma m_inv_no_joins ids c :
  m_inv ids c → p_gets (m_pool c) ≠ 0 →
  joins_of (m_trace c) = [] ∧ m_joins c = ids.
Proof.
  intros (_ & _ & _ & drain & joined & Htr & Hd & Hids & Hj) Hgets.
  destruct joined as [|j joined]; [|by destruct Hgets; apply Hj].
  simpl in *. rewrite app_nil_r in Htr. by rewrite Htr.
Qed.

Lemma process_move_preserves ids i w c :
  p_processes (m_pool c) !! i = Some w → m_inv ids c →
  let c' := process_move i w c in
  m_inv ids c' ∧ S (m_measure c') = m_measure c ∧
  p_outcome (m_pool c') ≡ₚ p_outcome (m_pool c) ∧
  p_output (m_pool c') ≡ₚ p_output (m_pool c).
Proof.
  intros Hi Hinv.
  pose proof Hinv as (Hp & Hputs & Hgets & _).
  destruct (process_step_preserves fs keywords i w (m_pool c) Hi Hp)
    as (Hp' & Hm & Hout & Hlog).
  assert (p_gets (m_pool c) ≠ 0) as Hlive.
  { destruct Hp as [Hg _]. apply lookup_lt_Some in Hi. lia. }
  destruct (m_inv_no_joins ids c Hinv Hlive) as [Hnj Hjoins].
  unfold process_move, m_measure. simpl.
  split_and!; [|lia | done | done].
  unfold m_inv. simpl. split_and!; [done | | |].
  - rewrite puts_of_app, Hputs. unfold worker_events, process_step.
    destruct (worker_step fs keywords w); simpl; [by rewrite app_nil_r | done].
  - rewrite gets_of_app, Hgets. unfold worker_events, process_step.
    destruct (worker_step fs keywords w); simpl; by rewrite app_nil_r.
  - exists (m_trace c ++ worker_events fs keywords w), [].
    simpl. rewrite app_nil_r. split_and!; [done | | done | done].
    rewrite joins_of_app, Hnj. unfold worker_events.
    by destruct (worker_step fs keywords w).
Qed.

Lemma coordinator_move_preserves ids c c' :
  coordinator_move c = Some c' → m_inv ids c →
  m_inv ids c' ∧ S (m_measure c') = m_measure c ∧
  p_outcome (m_pool c') = p_outcome (m_pool c) ∧
  p_output (m_pool c') = p_output (m_pool c).
Proof.
  unfold coordinator_move. intros Hmove Hinv.
  pose proof Hinv as (Hp & Hputs & Hgets & drain & joined & Htr & Hd & Hids & Hj).
  destruct (p_gets (m_pool c)) as [|gets] eqn:Hg.
  - destruct (m_joins c) as [|i rest] eqn:Hjs; [done|].
    case_decide; [done|]. injection Hmove as <-.
    unfold m_measure, m_inv. simpl. rewrite Hjs. simpl.
    split_and!; [done | | | | lia | done | done].
    + by rewrite puts_of_app, app_nil_r.
    + by rewrite gets_of_app, app_nil_r.
    + exists drain, (joined ++ [i]).
      rewrite fmap_app, Htr, <-!app_assoc. by split_and!.
  - destruct (p_queue (m_pool c)) as [|m q] eqn:Hq; [done|].
    destruct (coordinator_step (m_pool c)) as [st'|] eqn:Hco; [|done].
    injection Hmove as <-.
    destruct (coordinator_step_preserves fs keywords _ _ Hco Hp)
      as (Hp' & Hm & Hout & Hlog).
    assert (p_gets (m_pool c) ≠ 0) as Hlive by lia.
    destruct (m_inv_no_joins ids c Hinv Hlive) as [Hnj Hjoins].
    assert (p_sent st' = p_sent (m_pool c) ∧
            (p_results_list st').*1 = (p_results_list (m_pool c)).*1 ++ [m.1])
      as [Hs Hr].
    { unfold coordinator_step in Hco. rewrite Hg, Hq in Hco.
      injection Hco as <-. simpl. by rewrite fmap_app. }
    unfold m_measure, m_inv. simpl.
    split_and!; [done | | | | lia | done | done].
    + by rewrite puts_of_app, app_nil_r, Hs.
    + by rewrite gets_of_app, Hgets, Hr.
    + exists (m_trace c ++ [Get m.1]), []. simpl. rewrite app_nil_r.
      split_and!; [done | | done | done].
      by rewrite joins_of_app, Hnj.
Qed.

Lemma system_step_preserves ids choice c c' :
  system_step choice c = Some c' → m_inv ids c →
  m_inv ids c' ∧ S (m_measure c') = m_measure c ∧
  p_outcome (m_pool c') ≡ₚ p_outcome (m_pool c) ∧
  p_output (m_pool c') ≡ₚ p_output (m_pool c).
Proof.
  unfold system_step. intros Hstep Hinv.
  destruct (coordinator_move c) as [c1|] eqn:Hco.
  - destruct (p_processes (m_pool c) !! _) as [w|] eqn:Hw.
    + injection Hstep as <-. by apply process_move_preserves.
    + injection Hstep as <-.
      destruct (coordinator_move_preserves ids _ _ Hco Hinv) as (? & ? & -> & ->).
      done.
  - destruct (pick choice (p_processes (m_pool c))) as [[i w]|] eqn:Hpick; [|done].
    injection Hstep as <-. apply pick_Some in Hpick.
    by apply process_move_preserves.
Qed.

(** Neither loop of the coordinator waits for ever: when nothing can move,
    everything is done. *)
Lemma system_step_None ids choice c :
  system_step choice c = None → m_inv ids c → m_measure c = 0.
Proof.
  unfold system_step, coordinator_move, m_measure, p_measure.
  intros Hstep ([Hg _] & _).
  destruct (p_gets (m_pool c)) as [|gets] eqn:Hgets.
  - destruct (m_joins c) as [|i rest] eqn:Hjs.
    + destruct (pick choice (p_processes (m_pool c))) as [[i w]|] eqn:Hpick;
        [done|].
      apply pick_None in Hpick. rewrite Hpick. done.
    + case_decide as Hlive.
      * destruct (pick choice (p_processes (m_pool c))) as [[j w]|] eqn:Hpick;
          [done|].
        apply pick_None in Hpick. rewrite Hpick in Hlive.
        by apply elem_of_nil in Hlive.
      * by destruct (p_processes (m_pool c) !! _).
  - destruct (p_queue (m_pool c)) as [|m q] eqn:Hq.
    + destruct (pick choice (p_processes (m_pool c))) as [[i w]|] eqn:Hpick;
        [done|].
      apply pick_None in Hpick. rewrite Hpick in Hg. simpl in Hg. lia.
    + unfold coordinator_step in Hstep. rewrite Hgets, Hq in Hstep.
      simpl in Hstep. by destruct (p_processes (m_pool c) !! _).
Qed.

Lemma run_system_invariant ids fuel sched c :
  m_inv ids c →
  let c' := run_system fuel sched c in
  m_inv ids c' ∧
  p_outcome (m_pool c') ≡ₚ p_outcome (m_pool c) ∧
  p_output (m_pool c') ≡ₚ p_output (m_pool c).
Proof.
  revert sched c. induction fuel as [|fuel IH]; intros sched c Hinv; simpl.
  - done.
  - destruct (system_step (hd 0 sched) c) as [c1|] eqn:Hstep; [|done].
    destruct (system_step_preserves ids _ _ _ Hstep Hinv) as (Hinv1 & _ & Ho & Hl).
    destruct (IH (tl sched) c1 Hinv1) as (H1 & H2 & H3).
    split_and!; [done | by rewrite H2 | by rewrite H3].
Qed.

Lemma run_system_measure ids fuel sched c :
  m_inv ids c → m_measure c ≤ fuel →
  m_measure (run_system fuel sched c) = 0.
Proof.
  revert sched c. induction fuel as [|fuel IH]; intros sched c Hinv Hm; simpl.
  - lia.
  - destruct (system_step (hd 0 sched) c) as [c1|] eqn:Hstep.
    + destruct (system_step_preserves ids _ _ _ Hstep Hinv) as (Hinv1 & Hm1 & _).
      apply IH; [done | lia].
    + by eapply system_step_None.
Qed.

Lemma m_inv_init (processes : list worker) :
  m_inv (w_id <$> processes) (m_init processes).
Proof.
  unfold m_inv, m_init, p_inv. simpl. split_and!; [done | done | done | done |].
  exists [], []. by split_and!.
Qed.

Lemma m_measure_0 ids c :
  m_inv ids c → m_measure c = 0 →
  p_processes (m_pool c) = [] ∧ p_gets (m_pool c) = 0 ∧
  p_queue (m_pool c) = [] ∧ m_joins c = [] ∧
  ∃ drain, m_trace c = drain ++ (Join <$> ids) ∧ joins_of drain = [].
Proof.
  intros (Hp & _ & _ & drain & joined & Htr & Hd & Hids & _) Hm.
  unfold m_measure in Hm.
  destruct (p_measure_0 _ Hp) as (H1 & H2 & H3); [lia|].
  assert (m_joins c = []) as Hj by (apply length_zero_iff_nil; lia).
  split_and!; [done | done | done | done |].
  exists drain. rewrite Hj, app_nil_r in Hids. by subst.
Qed.

(** The pool inside the system moves as the pool alone does; the joins
    come when the pool is at rest and leave it as it is. *)
Lemma system_step_pool ids choice c :
  m_inv ids c →
  match system_step choice c with
  | Some c' =>
      pool_step fs keywords choice (m_pool c) = Some (m_pool c') ∨
      (pool_step fs keywords choice (m_pool c) = None ∧ m_pool c' = m_pool c)
  | None => pool_step fs keywords choice (m_pool c) = None
  end.
Proof.
  intros ([Hg _] & _). unfold system_step, coordinator_move, pool_step.
  destruct (p_gets (m_pool c)) as [|gets] eqn:Hgets.
  - assert (p_processes (m_pool c) = []) as Hps.
    { apply length_zero_iff_nil. lia. }
    assert (coordinator_step (m_pool c) = None) as Hco.
    { unfold coordinator_step. by rewrite Hgets. }
    rewrite Hco, Hps. simpl.
    destruct (m_joins c) as [|i rest]; [done|]. by right.
  - destruct (p_queue (m_pool c)) as [|m q] eqn:Hq.
    + assert (coordinator_step (m_pool c) = None) as Hco.
      { unfold coordinator_step. by rewrite Hgets, Hq. }
      rewrite Hco.
      destruct (pick choice (p_processes (m_pool c))) as [[i w]|]; simpl; [|done].
      by left.
    + destruct (coordinator_step (m_pool c)) as [st'|] eqn:Hco; simpl.
      * destruct (p_processes (m_pool c) !! _); by left.
      * unfold coordinator_step in Hco. by rewrite Hgets, Hq in Hco.
Qed.

Lemma run_processes_rest fuel sched st :
  pool_step fs keywords (hd 0 sched) st = None →
  run_processes fs keywords fuel sched st = st.
Proof. intros Hn. destruct fuel; [done|]. simpl. by rewrite Hn. Qed.

Lemma pool_at_rest choice choice' st :
  pool_step fs keywords choice st = None →
  pool_step fs keywords choice' st = None.
Proof.
  unfold pool_step. destruct (coordinator_step st).
  - by destruct (p_processes st !! _).
  - destruct (pick choice (p_processes st)) as [[i w]|] eqn:Hp; [done|].
    apply pick_None in Hp. rewrite Hp. done.
Qed.

Lemma run_system_pool ids fuel sched c :
  m_inv ids c →
  m_pool (run_system fuel sched c) =
  run_processes fs keywords fuel sched (m_pool c).
Proof.
  revert sched c. induction fuel as [|fuel IH]; intros sched c Hinv; [done|].
  simpl. pose proof (system_step_pool ids (hd 0 sched) c Hinv) as Hpool.
  destruct (system_step (hd 0 sched) c) as [c1|] eqn:Hstep.
  - destruct (system_step_preserves ids _ _ _ Hstep Hinv) as (Hinv1 & _).
    rewrite (IH _ _ Hinv1).
    destruct Hpool as [Hp | [Hp Heq]]; rewrite Hp; [done|].
    rewrite Heq. apply run_processes_rest. by eapply pool_at_rest.
  - by rewrite Hpool.
Qed.
End SystemFacts.

Lemma spawn_chunks (files : list string) (n : Z) :
  spawn (chunks_of files (Z.to_nat n)) n = Ok (spawned files n).
Proof. apply spawn_Ok. by rewrite length_chunks_of. Qed.

Lemma spawned_todo_chunks (files : list string) (n : Z) :
  w_todo <$> spawned files n =
  filter (fun c => c ≠ []) (chunks_of files (Z.to_nat n)).
Proof.
  unfold spawned, range. rewrite <-spawned_todo.
  by rewrite length_chunks_of.
Qed.

Lemma elem_of_worker_for (file_chunks : list (list string)) i w :
  w ∈ worker_for file_chunks i ↔
  ∃ c, file_chunks !! i = Some c ∧ c ≠ [] ∧ w = Worker i c ∅.
Proof.
  unfold worker_for. destruct (file_chunks !! i) as [[|f c]|].
  - rewrite elem_of_nil. split; [done | by intros (c & [= <-] & ? & _)].
  - rewrite list_elem_of_singleton. split; [intros ->; eauto | ].
    by intros (c' & [= <-] & _ & ->).
  - rewrite elem_of_nil. split; [done | by intros (c & [=] & _)].
Qed.

Lemma elem_of_spawned (files : list string) (n : Z) w :
  w ∈ spawned files n ↔
  ∃ i c, chunks_of files (Z.to_nat n) !! i = Some c ∧ c ≠ [] ∧ w = Worker i c ∅.
Proof.
  unfold spawned, range. rewrite list_elem_of_bind. split.
  - intros (i & Hw%elem_of_worker_for & _). eauto.
  - intros (i & c & Hc & Hne & ->). exists i. split.
    + apply elem_of_worker_for. eauto.
    + apply elem_of_seq. apply lookup_lt_Some in Hc.
      rewrite length_chunks_of in Hc. lia.
Qed.

Lemma spawned_ids_sublist (file_chunks : list (list string)) (l : list nat) :
  w_id <$> (l ≫= worker_for file_chunks) `sublist_of` l.
Proof.
  induction l as [|i l IH]; [done|].
  rewrite bind_cons, fmap_app. unfold worker_for at 1.
  destruct (file_chunks !! i) as [[|f c]|]; simpl.
  - by apply sublist_cons.
  - by apply sublist_skip.
  - by apply sublist_cons.
Qed.

Lemma NoDup_spawned_ids (files : list string) (n : Z) :
  NoDup (w_id <$> spawned files n).
Proof.
  eapply sublist_NoDup; [apply NoDup_seq | apply spawned_ids_sublist].
Qed.

(** ** A run, whatever the strategy and the schedule *)

Section RunFacts.
Variable fs : string → read_outcome.
Variable keywords : list string.

Local Abbreviation finish := (finish fs keywords).
Local Abbreviation pending := (pending fs keywords).
Local Abbreviation scan := (fun files => (search_keywords_in_files fs files keywords).1).

Lemma run_threading_Ok files n sched :
  ∃ results log,
    run_threading fs keywords files n sched =
      Ok (merge_results results.*2, log) ∧
    results ≡ₚ finish <$> spawned files n ∧
    log ≡ₚ spawned files n ≫= pending.
Proof.
  unfold run_threading.
  rewrite chunkify_Ok, res_bind_Ok, spawn_chunks, res_bind_Ok.
  destruct (run_threads_complete fs keywords (work (spawned files n)) sched
              (TState (spawned files n) [] [])) as (Hts & Hres & Hlog); [done|].
  simpl in *. rewrite Hts. eauto.
Qed.

Lemma run_multiprocessing_Ok files n sched :
  ∃ results log,
    run_multiprocessing fs keywords files n sched =
      Ok (merge_results results.*2, log) ∧
    results ≡ₚ finish <$> spawned files n ∧
    log ≡ₚ spawned files n ≫= pending.
Proof.
  unfold run_multiprocessing.
  rewrite chunkify_Ok, res_bind_Ok, spawn_chunks, res_bind_Ok.
  pose proof (m_inv_init (spawned files n)) as Hinit.
  destruct (run_system_invariant fs keywords _ (m_measure (m_init (spawned files n)))
              sched _ Hinit) as (Hinv & Hout & Hlog).
  pose proof (run_system_measure fs keywords _ _ sched _ Hinit (le_n _)) as Hm.
  destruct (m_measure_0 _ _ Hinv Hm) as (Hps & Hg & Hq & Hj & _).
  cbv zeta. rewrite Hg, Hj.
  unfold p_outcome, p_output in Hout, Hlog.
  rewrite Hps, Hq in Hout. rewrite Hps in Hlog.
  simpl in Hout, Hlog. rewrite !app_nil_r in Hout, Hlog. eauto.
Qed.

Lemma run_Ok s files n sched :
  ∃ results log,
    run fs keywords s files n sched = Ok (merge_results results.*2, log) ∧
    results ≡ₚ finish <$> spawned files n ∧
    log ≡ₚ spawned files n ≫= pending.
Proof.
  destruct s; [apply run_threading_Ok | apply run_multiprocessing_Ok].
Qed.

Lemma partials_spawned files n :
  (finish <$> spawned files n).*2 =
  scan <$> filter (fun c => c ≠ []) (chunks_of files (Z.to_nat n)).
Proof.
  rewrite <-spawned_todo_chunks, <-!list_fmap_compose.
  apply Forall_fmap_ext_1, Forall_forall. intros w Hw.
  apply elem_of_spawned in Hw as (i & c & _ & _ & ->). done.
Qed.

Lemma pending_spawned files n :
  spawned files n ≫= pending =
  failures fs (concat (filter (fun c => c ≠ []) (chunks_of files (Z.to_nat n)))).
Proof.
  rewrite <-spawned_todo_chunks.
  induction (spawned files n) as [|w ws IH]; [done|].
  rewrite bind_cons, fmap_cons, IH. simpl. unfold failures at 2.
  rewrite bind_app. f_equal. apply scan_loop_log.
Qed.

Lemma files_of_scan files k :
  files_of (scan files) k = hits fs keywords k files.
Proof.
  unfold search_keywords_in_files.
  by rewrite files_of_scan_loop, files_of_empty.
Qed.

Lemma dict_wf_scan files : dict_wf (scan files).
Proof. apply dict_wf_scan_loop, dict_wf_empty. Qed.

Lemma files_of_merge_scans (chunks : list (list string)) k :
  files_of (merge_results (scan <$> chunks)) k =
  hits fs keywords k (concat chunks).
Proof.
  rewrite files_of_merge_results.
  induction chunks as [|c chunks IH]; [done|].
  rewrite !fmap_cons. simpl. by rewrite hits_app, IH, files_of_scan.
Qed.

Lemma concat_filter_nonempty {A} (l : list (list A)) :
  concat (filter (fun c => c ≠ []) l) = concat l.
Proof.
  induction l as [|c l IH]; [done|]. rewrite filter_cons.
  destruct (decide (c ≠ [])) as [Hc|Hc]; simpl; [by rewrite IH|].
  apply dec_stable in Hc. by rewrite Hc, IH.
Qed.

(** What every run returns: under each keyword the hits of that keyword in
    the input, in some order; and it prints the failures of the input. *)
Lemma run_content s files n sched r log :
  (1 ≤ n)%Z →
  run fs keywords s files n sched = Ok (r, log) →
  dict_wf r ∧
  (∀ k, files_of r k ≡ₚ hits fs keywords k files) ∧
  log ≡ₚ failures fs files.
Proof.
  intros Hn Hrun.
  destruct (run_Ok s files n sched) as (results & log' & Hr & Hres & Hlog).
  rewrite Hrun in Hr. injection Hr as -> ->.
  assert (results.*2 ≡ₚ
          scan <$> filter (fun c => c ≠ []) (chunks_of files (Z.to_nat n)))
    as Hparts by (by rewrite Hres, partials_spawned).
  split_and!.
  - apply dict_wf_merge_results. rewrite Hparts.
    apply Forall_fmap, Forall_forall. intros c _. apply dict_wf_scan.
  - intros k. rewrite (merge_results_perm _ _ k Hparts), files_of_merge_scans.
    rewrite concat_filter_nonempty. unfold hits.
    rewrite concat_chunks_of; [done | lia].
  - rewrite Hlog, pending_spawned, concat_filter_nonempty. unfold failures.
    rewrite concat_chunks_of; [done | lia].
Qed.

Lemma run_nonpos s files n sched :
  (n < 1)%Z → run fs keywords s files n sched = Ok (∅, []).
Proof.
  intros Hn.
  destruct (run_Ok s files n sched) as (results & log & Hr & Hres & Hlog).
  assert (spawned files n = []) as Hsp.
  { unfold spawned, range. by replace (Z.to_nat n) with 0 by lia. }
  rewrite Hsp in *. apply Permutation_nil_r in Hres, Hlog. by subst.
Qed.
End RunFacts.

(** * The claims *)

Lemma dict_wf_dom (r1 r2 : dict) :
  dict_wf r1 → dict_wf r2 → (∀ k, files_of r1 k ≡ₚ files_of r2 k) →
  dom r1 = dom r2.
Proof.
  intros Hwf1 Hwf2 Hperm. apply set_eq. intros k.
  rewrite !elem_of_dom, <-!not_eq_None_Some.
  rewrite (dict_wf_lookup_None _ _ Hwf1), (dict_wf_lookup_None _ _ Hwf2).
  specialize (Hperm k). split; intros Hne Hnil; apply Hne.
  - rewrite Hnil in Hperm. by apply Permutation_nil_r in Hperm.
  - rewrite Hnil in Hperm. by apply Permutation_nil_l in Hperm.
Qed.

Lemma stride_all {A} (lst : list A) : stride lst 0 1 = lst.
Proof. induction lst as [|x lst IH]; [done|]. simpl. by rewrite IH. Qed.

Lemma merge_one_empty (res : dict) : merge_one ∅ res = res.
Proof.
  apply map_eq. intros k. rewrite lookup_merge_one, files_of_empty.
  by destruct (res !! k).
Qed.

Lemma run_sequential fs keywords s files sched :
  ∃ log, run fs keywords s files 1 sched =
         Ok ((search_keywords_in_files fs files keywords).1, log).
Proof.
  destruct (run_Ok fs keywords s files 1 sched) as (results & log & Hr & Hres & _).
  exists log. rewrite Hr. do 2 f_equal.
  apply (fmap_Permutation snd) in Hres. rewrite partials_spawned in Hres.
  change (Z.to_nat 1) with 1 in Hres. unfold chunks_of in Hres. simpl in Hres.
  rewrite stride_all, filter_cons, filter_nil in Hres.
  destruct (decide (files ≠ [])) as [Hne|Hnil].
  - simpl in Hres. apply Permutation_singleton_r in Hres. rewrite Hres.
    unfold merge_results. simpl. apply merge_one_empty.
  - apply dec_stable in Hnil. subst files. simpl in Hres.
    apply Permutation_nil_r in Hres. by rewrite Hres.
Qed.

(** C1: for every file list, keyword collection and two distinct worker
    counts [n1], [n2 ≥ 1], a run with [n1] workers and a run with [n2]
    workers (whatever the strategies and the schedules) both return, and the
    two mappings have the same keyword set and, under every keyword, the same
    multiset of files; a run with one worker returns the Scanner's result on
    the whole input. *)
Theorem run_worker_count_independent fs keywords s1 s2 files (n1 n2 : Z)
    sched1 sched2 :
  (1 ≤ n1)%Z → (1 ≤ n2)%Z → n1 ≠ n2 →
  ∃ r1 log1 r2 log2,
    run fs keywords s1 files n1 sched1 = Ok (r1, log1) ∧
    run fs keywords s2 files n2 sched2 = Ok (r2, log2) ∧
    dom r1 = dom r2 ∧
    (∀ k, files_of r1 k ≡ₚ files_of r2 k) ∧
    (n1 = 1%Z → r1 = (search_keywords_in_files fs files keywords).1).
Proof.
  intros Hn1 Hn2 _.
  destruct (run_Ok fs keywords s1 files n1 sched1) as (rs1 & log1 & Hr1 & _).
  destruct (run_Ok fs keywords s2 files n2 sched2) as (rs2 & log2 & Hr2 & _).
  destruct (run_content _ _ _ _ _ _ _ _ Hn1 Hr1) as (Hwf1 & Hc1 & _).
  destruct (run_content _ _ _ _ _ _ _ _ Hn2 Hr2) as (Hwf2 & Hc2 & _).
  assert (∀ k, files_of (merge_results rs1.*2) k ≡ₚ
               files_of (merge_results rs2.*2) k) as Hperm.
  { intros k. by rewrite Hc1, Hc2. }
  eexists _, _, _, _. split_and!; [done | done | | done |].
  - by apply dict_wf_dom.
  - intros ->. destruct (run_sequential fs keywords s1 files sched1) as [log Hs].
    congruence.
Qed.

Lemma run_worker_count_independent_witness :
  (1 ≤ 1)%Z ∧ (1 ≤ 3)%Z ∧ (1 ≠ 3)%Z ∧
  ∃ r1 log1 r2 log2,
    run fs_demo ["apple"; "banana"; "kiwi"] Threads
        ["f1.txt"; "f2.txt"; "f3.txt"; "missing.txt"] 1 [] = Ok (r1, log1) ∧
    run fs_demo ["apple"; "banana"; "kiwi"] Processes
        ["f1.txt"; "f2.txt"; "f3.txt"; "missing.txt"] 3 [2; 0; 1; 1] = Ok (r2, log2) ∧
    dom r1 = dom r2 ∧
    (∀ k, files_of r1 k ≡ₚ files_of r2 k) ∧
    ((1 = 1)%Z → r1 = (search_keywords_in_files fs_demo
                         ["f1.txt"; "f2.txt"; "f3.txt"; "missing.txt"]
                         ["apple"; "banana"; "kiwi"]).1).
Proof.
  split_and!; [lia | lia | lia |].
  apply (run_worker_count_independent fs_demo ["apple"; "banana"; "kiwi"]
           Threads Processes ["f1.txt"; "f2.txt"; "f3.txt"; "missing.txt"]
           1 3 [] [2; 0; 1; 1]); lia.
Defined.

(** C2: for every list and every [n ≥ 1], [chunkify] returns exactly [n]
    partitions; the entry at input index [i] sits in partition [i mod n] (at
    position [i / n]), and a partition holds nothing else; every partition
    keeps the input's relative order; the partitions together hold the input,
    every entry once; and for distinct files no file is in two partitions. *)
Theorem chunkify_round_robin {A} (lst : list A) (n : Z) :
  (1 ≤ n)%Z →
  ∃ chunks,
    chunkify lst n = Ok chunks ∧
    length chunks = Z.to_nat n ∧
    (∀ i x, lst !! i = Some x →
       ∃ c, chunks !! (i `mod` Z.to_nat n) = Some c ∧
            c !! (i `div` Z.to_nat n) = Some x) ∧
    (∀ j c k x, chunks !! j = Some c → c !! k = Some x →
       j < Z.to_nat n ∧ lst !! (k * Z.to_nat n + j) = Some x) ∧
    (∀ c, c ∈ chunks → c `sublist_of` lst) ∧
    concat chunks ≡ₚ lst ∧
    (NoDup lst → ∀ j1 j2 c1 c2 x,
       chunks !! j1 = Some c1 → chunks !! j2 = Some c2 →
       x ∈ c1 → x ∈ c2 → j1 = j2).
Proof.
  intros Hn. exists (chunks_of lst (Z.to_nat n)).
  split; [apply chunkify_Ok|].
  assert (1 ≤ Z.to_nat n) as HN by lia. revert HN.
  generalize (Z.to_nat n). intros N HN.
  assert (∀ j c k x, chunks_of lst N !! j = Some c → c !! k = Some x →
            j < N ∧ lst !! (k * N + j) = Some x) as Hpos.
  { intros j c k x [Hj ->]%lookup_chunks_of_Some Hx.
    rewrite lookup_stride in Hx by done. by rewrite Nat.add_comm. }
  split_and!.
  - apply length_chunks_of.
  - intros i x Hx. exists (stride lst (i `mod` N) N).
    pose proof (Nat.mod_upper_bound i N) as Hlt.
    rewrite lookup_chunks_of by lia. split; [done|].
    rewrite lookup_stride by done.
    replace (i `mod` N + i `div` N * N) with i; [done|].
    pose proof (Nat.div_mod_eq i N). lia.
  - done.
  - intros c (j & Hc)%list_elem_of_lookup.
    apply lookup_chunks_of_Some in Hc as [_ ->]. apply stride_sublist.
  - by apply concat_chunks_of.
  - intros Hnd j1 j2 c1 c2 x Hc1 Hc2 (k1 & Hx1)%list_elem_of_lookup
      (k2 & Hx2)%list_elem_of_lookup.
    destruct (Hpos _ _ _ _ Hc1 Hx1) as [Hj1 Hl1].
    destruct (Hpos _ _ _ _ Hc2 Hx2) as [Hj2 Hl2].
    pose proof (NoDup_lookup _ _ _ _ Hnd Hl1 Hl2) as Heq.
    assert (k1 = k2) by nia. nia.
Qed.

Lemma chunkify_round_robin_witness :
  (1 ≤ 3)%Z ∧
  ∃ chunks,
    chunkify ["a"; "b"; "c"; "d"; "e"; "f"; "g"] 3 = Ok chunks ∧
    length chunks = Z.to_nat 3 ∧
    (∀ i x, ["a"; "b"; "c"; "d"; "e"; "f"; "g"] !! i = Some x →
       ∃ c, chunks !! (i `mod` Z.to_nat 3) = Some c ∧
            c !! (i `div` Z.to_nat 3) = Some x) ∧
    (∀ j c k x, chunks !! j = Some c → c !! k = Some x →
       j < Z.to_nat 3 ∧
       ["a"; "b"; "c"; "d"; "e"; "f"; "g"] !! (k * Z.to_nat 3 + j) = Some x) ∧
    (∀ c, c ∈ chunks → c `sublist_of` ["a"; "b"; "c"; "d"; "e"; "f"; "g"]) ∧
    concat chunks ≡ₚ ["a"; "b"; "c"; "d"; "e"; "f"; "g"] ∧
    (NoDup ["a"; "b"; "c"; "d"; "e"; "f"; "g"] → ∀ j1 j2 c1 c2 x,
       chunks !! j1 = Some c1 → chunks !! j2 = Some c2 →
       x ∈ c1 → x ∈ c2 → j1 = j2).
Proof.
  split; [lia|].
  apply (chunkify_round_robin ["a"; "b"; "c"; "d"; "e"; "f"; "g"] 3). lia.
Defined.

Example chunkify_seven_by_three :
  chunkify ["a"; "b"; "c"; "d"; "e"; "f"; "g"] 3 =
  Ok [["a"; "d"; "g"]; ["b"; "e"]; ["c"; "f"]].
Proof. reflexivity. Qed.

Lemma matches_spec fs k f :
  matches fs k f = true ↔
  ∃ content pre post, fs f = Content content ∧ content = pre +:+ k +:+ post.
Proof.
  unfold matches. destruct (fs f) as [content|e|e].
  - rewrite contains_spec. split.
    + intros (pre & post & ->). by exists (pre +:+ k +:+ post), pre, post.
    + intros (c & pre & post & [= <-] & ->). by exists pre, post.
  - split; [done | by intros (? & ? & ? & [=] & _)].
  - split; [done | by intros (? & ? & ? & [=] & _)].
Qed.

(** C3: for every partition and keyword set, the Scanner's list for a keyword
    [k] of the set is the partition filtered, in the partition's order, by
    "the file was read and [k] occurs in its text as an exact substring"; a
    file is under [k] exactly when it is in the partition, [k] is a keyword
    and the text is [pre ++ k ++ post] for some [pre], [post]; a keyword has
    an entry only once a file matched it. *)
Theorem scanner_substring_match fs (partition keywords : list string) :
  NoDup keywords →
  let r := (search_keywords_in_files fs partition keywords).1 in
  (∀ k, k ∈ keywords →
     files_of r k = filter (fun f => matches fs k f = true) partition) ∧
  (∀ k, k ∉ keywords → r !! k = None) ∧
  (∀ k, r !! k = None ↔ files_of r k = []) ∧
  (∀ k f, f ∈ files_of r k ↔
     f ∈ partition ∧ k ∈ keywords ∧
     ∃ content pre post, fs f = Content content ∧ content = pre +:+ k +:+ post).
Proof.
  intros Hnd r.
  assert (dict_wf r) as Hwf by apply dict_wf_scan.
  assert (∀ k, files_of r k =
               if decide (k ∈ keywords)
               then filter (fun f => matches fs k f = true) partition else [])
    as Hfiles.
  { intros k. unfold r. by rewrite files_of_scan, hits_NoDup. }
  split_and!.
  - intros k Hk. by rewrite Hfiles, decide_True.
  - intros k Hk. apply dict_wf_lookup_None; [done|].
    by rewrite Hfiles, decide_False.
  - intros k. by apply dict_wf_lookup_None.
  - intros k f. rewrite Hfiles, <-matches_spec. case_decide as Hk.
    + rewrite list_elem_of_filter. tauto.
    + rewrite elem_of_nil. tauto.
Qed.

Lemma scanner_substring_match_witness :
  NoDup ["apple"; "banana"; "kiwi"] ∧
  let r := (search_keywords_in_files fs_demo
              ["f1.txt"; "missing.txt"; "f2.txt"; "f3.txt"]
              ["apple"; "banana"; "kiwi"]).1 in
  (∀ k, k ∈ ["apple"; "banana"; "kiwi"] →
     files_of r k = filter (fun f => matches fs_demo k f = true)
                      ["f1.txt"; "missing.txt"; "f2.txt"; "f3.txt"]) ∧
  (∀ k, k ∉ ["apple"; "banana"; "kiwi"] → r !! k = None) ∧
  (∀ k, r !! k = None ↔ files_of r k = []) ∧
  (∀ k f, f ∈ files_of r k ↔
     f ∈ ["f1.txt"; "missing.txt"; "f2.txt"; "f3.txt"] ∧
     k ∈ ["apple"; "banana"; "kiwi"] ∧
     ∃ content pre post,
       fs_demo f = Content content ∧ content = pre +:+ k +:+ post).
Proof.
  assert (NoDup ["apple"; "banana"; "kiwi"]) as Hnd
    by (by apply (bool_decide_unpack _); vm_compute).
  split; [done|].
  by apply (scanner_substring_match fs_demo
              ["f1.txt"; "missing.txt"; "f2.txt"; "f3.txt"]
              ["apple"; "banana"; "kiwi"]).
Defined.

Example contains_is_case_sensitive :
  contains "apple" "Apple pie" = false ∧ contains "apple" "an apple pie" = true ∧
  contains "" "" = true ∧ contains "pie " "apple pie" = false.
Proof. by vm_compute. Qed.

Example scanner_demo :
  map_to_list (search_keywords_in_files fs_demo
                 ["f1.txt"; "missing.txt"; "f2.txt"; "f3.txt"]
                 ["apple"; "banana"; "kiwi"]).1
    ≡ₚ [("apple", ["f1.txt"; "f3.txt"]); ("banana", ["f2.txt"; "f3.txt"])] ∧
  (search_keywords_in_files fs_demo
     ["f1.txt"; "missing.txt"; "f2.txt"; "f3.txt"]
     ["apple"; "banana"; "kiwi"]).2
    = [DiagOSError "missing.txt" "No such file or directory"].
Proof. split; [by vm_compute | reflexivity]. Qed.

Lemma filter_concat {A} (P : A → Prop) `{∀ x, Decision (P x)} (ls : list (list A)) :
  filter P (concat ls) = concat (filter P <$> ls).
Proof.
  induction ls as [|l ls IH]; [done|]. simpl. by rewrite filter_app, IH.
Qed.

Lemma length_concat {A} (ls : list (list A)) :
  length (concat ls) = sum_list (length <$> ls).
Proof.
  induction ls as [|l ls IH]; [done|]. simpl. by rewrite length_app, IH.
Qed.

(** C5: [merge_results] is a left fold of [merge_one] from the empty
    mapping; [merge_one] appends each of a partial's lists to the accumulated
    entry of its keyword, creating the entry when the keyword is new; so a
    keyword is in the output exactly when some partial has it, its list is
    the concatenation of the partials' lists in the order of the partials,
    and a file is under a keyword as many times as in all partials
    together. *)
Theorem merge_results_left_fold (results_list : list dict) :
  merge_results [] = ∅ ∧
  (∀ rs res, merge_results (rs ++ [res]) = merge_one (merge_results rs) res) ∧
  (∀ (final_dict res : dict) k,
     merge_one final_dict res !! k =
     match res !! k with
     | Some paths => Some (files_of final_dict k ++ paths)
     | None => final_dict !! k
     end) ∧
  (∀ k, is_Some (merge_results results_list !! k) ↔
        ∃ res, res ∈ results_list ∧ is_Some (res !! k)) ∧
  (∀ k, files_of (merge_results results_list) k =
        concat ((fun res => files_of res k) <$> results_list)) ∧
  (∀ k f, length (filter (eq f) (files_of (merge_results results_list) k)) =
          sum_list ((fun res => length (filter (eq f) (files_of res k)))
                      <$> results_list)).
Proof.
  split_and!.
  - done.
  - apply merge_results_snoc.
  - apply lookup_merge_one.
  - apply merge_results_is_Some.
  - apply files_of_merge_results.
  - intros k f. rewrite files_of_merge_results, filter_concat, length_concat.
    by rewrite <-!list_fmap_compose.
Qed.

Example merge_results_keeps_duplicates :
  merge_results [ {["a" := ["x"; "y"]]}; {["b" := []]};
                  {["a" := ["x"]; "b" := ["z"]]} ]
  = {["a" := ["x"; "y"; "x"]; "b" := ["z"]]}.
Proof. by vm_compute. Qed.

(** C10: with a worker count below 1, [chunkify] returns no partition and
    raises nothing, the spawning loop starts no worker, and both
    [run_threading] and [run_multiprocessing] return the empty mapping,
    having printed nothing. *)
Theorem run_without_workers fs keywords (files : list string) (n : Z) sched :
  (n < 1)%Z →
  chunkify files n = Ok [] ∧
  spawn [] n = Ok [] ∧
  run_threading fs keywords files n sched = Ok (∅, []) ∧
  run_multiprocessing fs keywords files n sched = Ok (∅, []).
Proof.
  intros Hn. split_and!.
  - by apply chunkify_nonpos.
  - unfold spawn, range. by replace (Z.to_nat n) with 0 by lia.
  - by apply (run_nonpos fs keywords Threads).
  - by apply (run_nonpos fs keywords Processes).
Qed.

Lemma run_without_workers_witness :
  (0 < 1)%Z ∧
  chunkify ["f1.txt"; "f2.txt"; "f3.txt"] 0 = Ok [] ∧
  spawn [] 0 = Ok [] ∧
  run_threading fs_demo ["apple"; "kiwi"] ["f1.txt"; "f2.txt"; "f3.txt"] 0 [1; 2]
    = Ok (∅, []) ∧
  run_multiprocessing fs_demo ["apple"; "kiwi"] ["f1.txt"; "f2.txt"; "f3.txt"] 0 [1; 2]
    = Ok (∅, []).
Proof.
  split; [lia|].
  apply (run_without_workers fs_demo ["apple"; "kiwi"]
           ["f1.txt"; "f2.txt"; "f3.txt"] 0 [1; 2]). lia.
Defined.

Example run_with_negative_count :
  run_threading fs_demo ["apple"] ["f1.txt"; "f2.txt"] (-2) [] = Ok (∅, []).
Proof. reflexivity. Qed.

(** ** The pairs of a mapping *)

Lemma elem_of_pairs_of (d : dict) k f :
  (k, f) ∈ pairs_of d ↔ f ∈ files_of d k.
Proof.
  unfold pairs_of, files_of. rewrite list_elem_of_bind. split.
  - intros ([k' l] & Hin & Hkl%elem_of_map_to_list).
    apply list_elem_of_fmap in Hin as (f' & [= -> ->] & Hf).
    by rewrite Hkl.
  - destruct (d !! k) as [l|] eqn:Hl; simpl; [|by intros ?%elem_of_nil].
    intros Hf. exists (k, l). split.
    + apply list_elem_of_fmap. eauto.
    + by apply elem_of_map_to_list.
Qed.

Lemma NoDup_pairs_of (d : dict) :
  (∀ k, NoDup (files_of d k)) → NoDup (pairs_of d).
Proof.
  intros Hnd. unfold pairs_of. apply NoDup_bind.
  - intros [k1 l1] [k2 l2] [k f] Hin1%elem_of_map_to_list Hin2%elem_of_map_to_list
      (f1 & [= -> ->] & _)%list_elem_of_fmap (f2 & [= -> _] & _)%list_elem_of_fmap.
    congruence.
  - intros [k l] Hkl%elem_of_map_to_list.
    apply NoDup_fmap_2_strong.
    + intros f1 f2 _ _. congruence.
    + specialize (Hnd k). unfold files_of in Hnd. by rewrite Hkl in Hnd.
  - apply NoDup_map_to_list.
Qed.

Lemma elem_of_true_matches fs keywords files k f :
  (k, f) ∈ true_matches fs keywords files ↔
  k ∈ keywords ∧ f ∈ files ∧ matches fs k f = true.
Proof.
  unfold true_matches. rewrite list_elem_of_bind. split.
  - intros (k' & Hin & Hk). apply list_elem_of_bind in Hin as (f' & Hin & Hf).
    destruct (matches fs k' f') eqn:Hm; [|by apply elem_of_nil in Hin].
    apply list_elem_of_singleton in Hin as [= -> ->]. done.
  - intros (Hk & Hf & Hm). exists k. split; [|done].
    apply list_elem_of_bind. exists f. split; [|done].
    rewrite Hm. apply list_elem_of_here.
Qed.

Lemma NoDup_true_matches fs keywords files :
  NoDup keywords → NoDup files → NoDup (true_matches fs keywords files).
Proof.
  intros Hk Hf. unfold true_matches. apply NoDup_bind; [| |done].
  - intros k1 k2 [k f] _ _ Hin1 Hin2.
    apply list_elem_of_bind in Hin1 as (f1 & Hin1 & _).
    apply list_elem_of_bind in Hin2 as (f2 & Hin2 & _).
    destruct (matches fs k1 f1); [|by apply elem_of_nil in Hin1].
    destruct (matches fs k2 f2); [|by apply elem_of_nil in Hin2].
    apply list_elem_of_singleton in Hin1, Hin2. congruence.
  - intros k _. apply NoDup_bind; [| |done].
    + intros f1 f2 [k' f] _ _ Hin1 Hin2.
      destruct (matches fs k f1); [|by apply elem_of_nil in Hin1].
      destruct (matches fs k f2); [|by apply elem_of_nil in Hin2].
      apply list_elem_of_singleton in Hin1, Hin2. congruence.
    + intros f _. destruct (matches fs k f); [apply NoDup_singleton | apply NoDup_nil_2].
Qed.

(** C4: for every run over distinct readable files and a keyword set, the
    run returns a mapping whose (keyword, file) pairs are, as a multiset,
    the true matches of the input: each pair occurs once, and a pair occurs
    exactly when the keyword is searched, the file is in the input and the
    keyword is in the file's text. *)
Theorem final_result_is_true_matches fs keywords s (files : list string)
    (n : Z) sched :
  NoDup files → Forall (readable fs) files → NoDup keywords → (1 ≤ n)%Z →
  ∃ r log,
    run fs keywords s files n sched = Ok (r, log) ∧
    pairs_of r ≡ₚ true_matches fs keywords files ∧
    NoDup (pairs_of r) ∧
    (∀ k f, (k, f) ∈ pairs_of r ↔
       k ∈ keywords ∧ f ∈ files ∧
       ∃ content, fs f = Content content ∧ contains k content = true).
Proof.
  intros Hfiles Hread Hkws Hn.
  destruct (run_Ok fs keywords s files n sched) as (rs & log & Hr & _).
  destruct (run_content _ _ _ _ _ _ _ _ Hn Hr) as (Hwf & Hc & _).
  exists (merge_results rs.*2), log.
  assert (∀ k, files_of (merge_results rs.*2) k ≡ₚ
               if decide (k ∈ keywords)
               then filter (fun f => matches fs k f = true) files else [])
    as Hlists.
  { intros k. by rewrite Hc, hits_NoDup. }
  assert (NoDup (pairs_of (merge_results rs.*2))) as Hnd.
  { apply NoDup_pairs_of. intros k. rewrite Hlists.
    case_decide; [by apply NoDup_filter | apply NoDup_nil_2]. }
  assert (∀ k f, (k, f) ∈ pairs_of (merge_results rs.*2) ↔
                 k ∈ keywords ∧ f ∈ files ∧ matches fs k f = true) as Hin.
  { intros k f. rewrite elem_of_pairs_of, Hlists. case_decide.
    - rewrite list_elem_of_filter. tauto.
    - rewrite elem_of_nil. tauto. }
  split_and!; [done | | done |].
  - apply NoDup_Permutation; [done | by apply NoDup_true_matches |].
    intros [k f]. by rewrite Hin, elem_of_true_matches.
  - intros k f. rewrite Hin. unfold matches.
    split; intros (Hk & Hf & Hm); (split_and!; [done | done |]).
    + destruct (fs f) as [content| |]; [eauto | done | done].
    + destruct Hm as (content & -> & Hm). done.
Qed.

Lemma final_result_is_true_matches_witness :
  NoDup ["f1.txt"; "f2.txt"; "f3.txt"] ∧
  Forall (readable fs_demo) ["f1.txt"; "f2.txt"; "f3.txt"] ∧
  NoDup ["apple"; "banana"; "kiwi"] ∧ (1 ≤ 2)%Z ∧
  ∃ r log,
    run fs_demo ["apple"; "banana"; "kiwi"] Threads
        ["f1.txt"; "f2.txt"; "f3.txt"] 2 [1; 0] = Ok (r, log) ∧
    pairs_of r ≡ₚ true_matches fs_demo ["apple"; "banana"; "kiwi"]
                    ["f1.txt"; "f2.txt"; "f3.txt"] ∧
    NoDup (pairs_of r) ∧
    (∀ k f, (k, f) ∈ pairs_of r ↔
       k ∈ ["apple"; "banana"; "kiwi"] ∧ f ∈ ["f1.txt"; "f2.txt"; "f3.txt"] ∧
       ∃ content, fs_demo f = Content content ∧ contains k content = true).
Proof.
  assert (NoDup ["f1.txt"; "f2.txt"; "f3.txt"]) as Hfiles
    by (by apply (bool_decide_unpack _); vm_compute).
  assert (NoDup ["apple"; "banana"; "kiwi"]) as Hkws
    by (by apply (bool_decide_unpack _); vm_compute).
  assert (Forall (readable fs_demo) ["f1.txt"; "f2.txt"; "f3.txt"]) as Hread
    by (repeat constructor; eexists; reflexivity).
  split_and!; [done | done | done | lia |].
  apply (final_result_is_true_matches fs_demo ["apple"; "banana"; "kiwi"]
           Threads ["f1.txt"; "f2.txt"; "f3.txt"] 2 [1; 0]); [done | done | done | lia].
Defined.

Example true_matches_demo :
  true_matches fs_demo ["apple"; "banana"; "kiwi"] ["f1.txt"; "f2.txt"; "f3.txt"]
  = [("apple", "f1.txt"); ("apple", "f3.txt");
     ("banana", "f2.txt"); ("banana", "f3.txt")].
Proof. reflexivity. Qed.

(** ** Unreadable files *)

Section Unreadable.
Variable fs : string → read_outcome.
Variable keywords : list string.
Variable f : string.
Hypothesis Hfail : ∀ content, fs f ≠ Content content.

Lemma matches_unreadable k : matches fs k f = false.
Proof.
  unfold matches. destruct (fs f) as [content| |] eqn:Hf; [|done..].
  by destruct (Hfail content).
Qed.

Lemma scan_file_unreadable d : (scan_file fs keywords f d).1 = d.
Proof.
  unfold scan_file. destruct (fs f) as [content| |] eqn:Hf; [|done..].
  by destruct (Hfail content).
Qed.

Lemma scan_loop_without partition d :
  (scan_loop fs keywords partition d).1 =
  (scan_loop fs keywords (filter (fun g => g ≠ f) partition) d).1.
Proof.
  revert d. induction partition as [|g partition IH]; intros d; [done|].
  rewrite filter_cons, scan_loop_cons. simpl.
  destruct (decide (g ≠ f)) as [Hg|Hg].
  - rewrite scan_loop_cons. simpl. apply IH.
  - apply dec_stable in Hg. subst g. rewrite scan_file_unreadable. apply IH.
Qed.

Lemma hits_without k files :
  hits fs keywords k (filter (fun g => g ≠ f) files) = hits fs keywords k files.
Proof.
  induction files as [|g files IH]; [done|].
  rewrite filter_cons. destruct (decide (g ≠ f)) as [Hg|Hg].
  - by rewrite (hits_cons _ _ _ g files), (hits_cons _ _ _ g (filter _ files)), IH.
  - apply dec_stable in Hg. subst g.
    by rewrite (hits_cons _ _ _ f files), IH, hits_singleton, matches_unreadable.
Qed.

Lemma not_elem_of_hits k files : f ∉ hits fs keywords k files.
Proof.
  unfold hits. intros (g & Hin & _)%list_elem_of_bind.
  destruct (matches fs k g) eqn:Hm; [|by apply elem_of_nil in Hin].
  apply elem_of_replicate in Hin as [Heq _].
  by rewrite <-Heq, matches_unreadable in Hm.
Qed.

Lemma failures_unreadable files :
  f ∈ files →
  (∃ e, fs f = RaisesOSError e ∧ DiagOSError f e ∈ failures fs files) ∨
  (∃ e, fs f = RaisesException e ∧ DiagUnexpected f e ∈ failures fs files).
Proof.
  intros Hf. unfold failures.
  destruct (fs f) as [content|e|e] eqn:Hfs.
  - by destruct (Hfail content).
  - left. exists e. split; [done|]. apply list_elem_of_bind. exists f.
    rewrite Hfs. split; [apply list_elem_of_here | done].
  - right. exists e. split; [done|]. apply list_elem_of_bind. exists f.
    rewrite Hfs. split; [apply list_elem_of_here | done].
Qed.
End Unreadable.

(** C6: when a file of the input cannot be read or decoded, every run
    returns a mapping that lists the file under no keyword, and has printed
    one diagnostic naming it, of the kind of its failure; the Scanner's result
    on any partition is its result on the partition without the file; and
    the run's mapping has the content of any run over the input without the
    file. *)
Theorem unreadable_file_is_skipped fs keywords s (files : list string) (n : Z)
    sched (f : string) :
  (∀ content, fs f ≠ Content content) → f ∈ files → (1 ≤ n)%Z →
  ∃ r log,
    run fs keywords s files n sched = Ok (r, log) ∧
    (∀ k, f ∉ files_of r k) ∧
    ((∃ e, fs f = RaisesOSError e ∧ DiagOSError f e ∈ log) ∨
     (∃ e, fs f = RaisesException e ∧ DiagUnexpected f e ∈ log)) ∧
    (∀ partition,
       (search_keywords_in_files fs partition keywords).1 =
       (search_keywords_in_files fs (filter (fun g => g ≠ f) partition)
          keywords).1) ∧
    (∀ s' sched', ∃ r' log',
       run fs keywords s' (filter (fun g => g ≠ f) files) n sched' = Ok (r', log') ∧
       dom r = dom r' ∧ ∀ k, files_of r k ≡ₚ files_of r' k).
Proof.
  intros Hfail Hf Hn.
  destruct (run_Ok fs keywords s files n sched) as (rs & log & Hr & _).
  destruct (run_content _ _ _ _ _ _ _ _ Hn Hr) as (Hwf & Hc & Hlog).
  exists (merge_results rs.*2), log. split_and!.
  - done.
  - intros k. rewrite Hc. by apply not_elem_of_hits.
  - destruct (failures_unreadable fs f Hfail files Hf) as [(e & He & Hin)|(e & He & Hin)];
      [left | right]; exists e; by rewrite Hlog.
  - intros partition. by apply scan_loop_without.
  - intros s' sched'.
    destruct (run_Ok fs keywords s' (filter (fun g => g ≠ f) files) n sched')
      as (rs' & log' & Hr' & _).
    destruct (run_content _ _ _ _ _ _ _ _ Hn Hr') as (Hwf' & Hc' & _).
    exists (merge_results rs'.*2), log'.
    assert (∀ k, files_of (merge_results rs.*2) k ≡ₚ
                 files_of (merge_results rs'.*2) k) as Hperm.
    { intros k. by rewrite Hc, Hc', hits_without. }
    split_and!; [done | by apply dict_wf_dom | done].
Qed.

Lemma unreadable_file_is_skipped_witness :
  (∀ content, fs_demo "missing.txt" ≠ Content content) ∧
  "missing.txt" ∈ ["f1.txt"; "missing.txt"; "f2.txt"; "f3.txt"] ∧ (1 ≤ 2)%Z ∧
  ∃ r log,
    run fs_demo ["apple"; "banana"] Processes
        ["f1.txt"; "missing.txt"; "f2.txt"; "f3.txt"] 2 [1; 2; 0] = Ok (r, log) ∧
    (∀ k, "missing.txt" ∉ files_of r k) ∧
    ((∃ e, fs_demo "missing.txt" = RaisesOSError e ∧
           DiagOSError "missing.txt" e ∈ log) ∨
     (∃ e, fs_demo "missing.txt" = RaisesException e ∧
           DiagUnexpected "missing.txt" e ∈ log)) ∧
    (∀ partition,
       (search_keywords_in_files fs_demo partition ["apple"; "banana"]).1 =
       (search_keywords_in_files fs_demo
          (filter (fun g => g ≠ "missing.txt") partition) ["apple"; "banana"]).1) ∧
    (∀ s' sched', ∃ r' log',
       run fs_demo ["apple"; "banana"] s'
           (filter (fun g => g ≠ "missing.txt")
              ["f1.txt"; "missing.txt"; "f2.txt"; "f3.txt"]) 2 sched'
         = Ok (r', log') ∧
       dom r = dom r' ∧ ∀ k, files_of r k ≡ₚ files_of r' k).
Proof.
  assert (∀ content, fs_demo "missing.txt" ≠ Content content) as Hfail by done.
  assert ("missing.txt" ∈ ["f1.txt"; "missing.txt"; "f2.txt"; "f3.txt"]) as Hin
    by (by apply (bool_decide_unpack _); vm_compute).
  split_and!; [done | done | lia |].
  apply (unreadable_file_is_skipped fs_demo ["apple"; "banana"] Processes
           ["f1.txt"; "missing.txt"; "f2.txt"; "f3.txt"] 2 [1; 2; 0] "missing.txt");
    [done | done | lia].
Defined.

Example run_with_missing_file :
  (fun out => match out with
              | Ok (r, log) => Some (map_to_list r, log)
              | _ => None
              end)
    (run fs_demo ["apple"; "banana"] Processes
       ["f1.txt"; "missing.txt"; "f2.txt"; "f3.txt"] 2 [1; 2; 0])
  = Some ([("apple", ["f1.txt"; "f3.txt"]); ("banana", ["f2.txt"; "f3.txt"])],
          [DiagOSError "missing.txt" "No such file or directory"]).
Proof. vm_compute. reflexivity. Qed.

(** ** The three-file scenario *)

Lemma occurrences_perm (keywords keywords' : list string) k :
  keywords ≡ₚ keywords' → occurrences keywords k = occurrences keywords' k.
Proof. intros Hp. unfold occurrences. by rewrite Hp. Qed.

Lemma hits_perm fs (keywords keywords' : list string) k files :
  keywords ≡ₚ keywords' → hits fs keywords k files = hits fs keywords' k files.
Proof.
  intros Hp. unfold hits. apply bind_ext_in. intros f _.
  by rewrite (occurrences_perm _ _ k Hp).
Qed.

Section Scenario.
Variable fs : string → read_outcome.
Hypothesis Hf1 : fs "f1.txt" = Content "apple pie".
Hypothesis Hf2 : fs "f2.txt" = Content "banana split".
Hypothesis Hf3 : fs "f3.txt" = Content "apple banana".

Lemma scenario_hits k :
  hits fs ["apple"; "banana"; "kiwi"] k ["f1.txt"; "f2.txt"; "f3.txt"] =
  if decide (k = "apple") then ["f1.txt"; "f3.txt"]
  else if decide (k = "banana") then ["f2.txt"; "f3.txt"]
  else [].
Proof.
  rewrite (hits_cons _ _ _ "f1.txt"), (hits_cons _ _ _ "f2.txt"), !hits_singleton.
  unfold matches. rewrite Hf1, Hf2, Hf3.
  destruct (decide (k = "apple")) as [->|Ha]; [reflexivity|].
  destruct (decide (k = "banana")) as [->|Hb]; [reflexivity|].
  destruct (decide (k = "kiwi")) as [->|Hk]; [reflexivity|].
  assert (occurrences ["apple"; "banana"; "kiwi"] k = 0) as ->.
  { unfold occurrences. rewrite !filter_cons, filter_nil.
    by rewrite !decide_False by done. }
  by destruct (contains k "apple pie"), (contains k "banana split"),
       (contains k "apple banana").
Qed.
End Scenario.

(** C7: with "f1.txt" holding "apple pie", "f2.txt" holding "banana split"
    and "f3.txt" holding "apple banana", and the keywords apple, banana and
    kiwi iterated in any order, every run with 1 to 3 workers, in either
    strategy and under every schedule, returns a mapping with "apple" listing
    f1.txt and f3.txt and "banana" listing f2.txt and f3.txt, each in some
    order; "kiwi", which is in no file, has no entry (its list reads as
    empty), and nothing is raised or printed. *)
Theorem three_file_scenario fs keywords s (n : Z) sched :
  fs "f1.txt" = Content "apple pie" →
  fs "f2.txt" = Content "banana split" →
  fs "f3.txt" = Content "apple banana" →
  keywords ≡ₚ ["apple"; "banana"; "kiwi"] →
  (1 ≤ n ≤ 3)%Z →
  ∃ r log,
    run fs keywords s ["f1.txt"; "f2.txt"; "f3.txt"] n sched = Ok (r, log) ∧
    dom r = {["apple"; "banana"]} ∧
    files_of r "apple" ≡ₚ ["f1.txt"; "f3.txt"] ∧
    files_of r "banana" ≡ₚ ["f2.txt"; "f3.txt"] ∧
    files_of r "kiwi" = [] ∧
    r !! "kiwi" = None ∧
    log = [].
Proof.
  intros Hf1 Hf2 Hf3 Hkws [Hn _].
  destruct (run_Ok fs keywords s ["f1.txt"; "f2.txt"; "f3.txt"] n sched)
    as (rs & log & Hr & _).
  destruct (run_content _ _ _ _ _ _ _ _ Hn Hr) as (Hwf & Hc & Hlog).
  exists (merge_results rs.*2), log.
  assert (∀ k, files_of (merge_results rs.*2) k ≡ₚ
               if decide (k = "apple") then ["f1.txt"; "f3.txt"]
               else if decide (k = "banana") then ["f2.txt"; "f3.txt"]
               else []) as Hlists.
  { intros k. by rewrite Hc, (hits_perm _ _ _ _ _ Hkws), scenario_hits. }
  assert (files_of (merge_results rs.*2) "kiwi" = []) as Hkiwi.
  { apply Permutation_nil_r. by rewrite Hlists. }
  split_and!; [done | | by rewrite Hlists | by rewrite Hlists | done | |].
  - apply set_eq. intros k.
    rewrite elem_of_dom, <-not_eq_None_Some, (dict_wf_lookup_None _ _ Hwf).
    rewrite elem_of_union, !elem_of_singleton. specialize (Hlists k).
    repeat case_decide.
    + split; [by left|]. intros _ Hnil. rewrite Hnil in Hlists.
      by apply Permutation_nil_cons in Hlists.
    + split; [by right|]. intros _ Hnil. rewrite Hnil in Hlists.
      by apply Permutation_nil_cons in Hlists.
    + apply Permutation_nil_r in Hlists. split; [done | tauto].
  - by apply dict_wf_lookup_None.
  - apply Permutation_nil_r. rewrite Hlog. unfold failures.
    rewrite !bind_cons, Hf1, Hf2, Hf3. done.
Qed.

Lemma three_file_scenario_witness :
  fs_demo "f1.txt" = Content "apple pie" ∧
  fs_demo "f2.txt" = Content "banana split" ∧
  fs_demo "f3.txt" = Content "apple banana" ∧
  ["kiwi"; "apple"; "banana"] ≡ₚ ["apple"; "banana"; "kiwi"] ∧
  (1 ≤ 2 ≤ 3)%Z ∧
  ∃ r log,
    run fs_demo ["kiwi"; "apple"; "banana"] Processes
        ["f1.txt"; "f2.txt"; "f3.txt"] 2 [1; 1; 0; 1] = Ok (r, log) ∧
    dom r = {["apple"; "banana"]} ∧
    files_of r "apple" ≡ₚ ["f1.txt"; "f3.txt"] ∧
    files_of r "banana" ≡ₚ ["f2.txt"; "f3.txt"] ∧
    files_of r "kiwi" = [] ∧
    r !! "kiwi" = None ∧
    log = [].
Proof.
  assert (["kiwi"; "apple"; "banana"] ≡ₚ ["apple"; "banana"; "kiwi"]) as Hp.
  { change ((["kiwi"] ++ ["apple"; "banana"]) ≡ₚ (["apple"; "banana"] ++ ["kiwi"])).
    apply Permutation_app_comm. }
  split_and!; [reflexivity | reflexivity | reflexivity | done | lia | lia |].
  apply (three_file_scenario fs_demo ["kiwi"; "apple"; "banana"] Processes 2
           [1; 1; 0; 1]); [reflexivity | reflexivity | reflexivity | done | lia].
Defined.

Example three_file_scenario_orders :
  (fun out => match out with
              | Ok (r, log) => Some (map_to_list r, log)
              | _ => None
              end)
    (run fs_demo ["apple"; "banana"; "kiwi"] Threads
       ["f1.txt"; "f2.txt"; "f3.txt"] 2 [1; 1; 0; 0; 0])
  = Some ([("apple", ["f1.txt"; "f3.txt"]); ("banana", ["f2.txt"; "f3.txt"])], [])
  ∧
  (fun out => match out with
              | Ok (r, log) => Some (map_to_list r, log)
              | _ => None
              end)
    (run fs_demo ["apple"; "banana"; "kiwi"] Threads
       ["f1.txt"; "f2.txt"; "f3.txt"] 3 [2; 2; 1; 1; 0; 0])
  = Some ([("apple", ["f3.txt"; "f1.txt"]); ("banana", ["f3.txt"; "f2.txt"])], []).
Proof. split; vm_compute; reflexivity. Qed.

(** ** Spawned workers *)

Lemma finish_spawned fs keywords (files : list string) (n : Z) :
  finish fs keywords <$> spawned files n =
  (fun w => (w_id w, (search_keywords_in_files fs (w_todo w) keywords).1))
    <$> spawned files n.
Proof.
  apply Forall_fmap_ext_1, Forall_forall. intros w Hw.
  apply elem_of_spawned in Hw as (i & c & _ & _ & ->). done.
Qed.

(** C8: the spawning loop shared by both strategies starts a worker for a
    partition exactly when the partition is not empty, one worker per such
    partition, working on that partition; with 4 workers and 3 files it
    starts 3 workers and none for the empty fourth partition; and what a run
    returns is the merge of the Scanner's results on the non-empty
    partitions, in some order. *)
Theorem workers_only_for_nonempty_partitions fs keywords (files : list string)
    (n : Z) :
  ∃ chunks ws,
    chunkify files n = Ok chunks ∧
    spawn chunks n = Ok ws ∧
    (∀ i c, chunks !! i = Some c → (∃ w, w ∈ ws ∧ w_id w = i) ↔ c ≠ []) ∧
    (∀ w, w ∈ ws → chunks !! w_id w = Some (w_todo w) ∧ w_local w = ∅) ∧
    NoDup (w_id <$> ws) ∧
    (n = 4%Z → length files = 3 →
       length ws = 3 ∧ chunks !! 3 = Some [] ∧ ∀ w, w ∈ ws → w_id w ≠ 3) ∧
    (∀ s sched, ∃ results log,
       run fs keywords s files n sched = Ok (merge_results results, log) ∧
       results ≡ₚ (fun c => (search_keywords_in_files fs c keywords).1)
                    <$> filter (fun c => c ≠ []) chunks).
Proof.
  exists (chunks_of files (Z.to_nat n)), (spawned files n). split_and!.
  - apply chunkify_Ok.
  - apply spawn_chunks.
  - intros i c Hc. split.
    + intros (w & (i' & c' & Hc' & Hne & ->)%elem_of_spawned & Hid).
      simpl in Hid. subst i'. congruence.
    + intros Hne. exists (Worker i c ∅). split; [|done].
      apply elem_of_spawned. eauto.
  - intros w (i & c & Hc & _ & ->)%elem_of_spawned. done.
  - apply NoDup_spawned_ids.
  - intros -> Hlen.
    destruct files as [|a [|b [|c [|? ?]]]]; try discriminate Hlen.
    split_and!; [done | done |].
    intros w (i & ch & Hch & Hne & ->)%elem_of_spawned. simpl. intros ->.
    by injection Hch as <-.
  - intros s sched.
    destruct (run_Ok fs keywords s files n sched) as (rs & log & Hr & Hres & _).
    exists rs.*2, log. split; [done|].
    by rewrite Hres, partials_spawned.
Qed.

Lemma workers_only_for_nonempty_partitions_witness :
  ∃ chunks ws,
    chunkify ["f1.txt"; "f2.txt"; "f3.txt"] 4 = Ok chunks ∧
    spawn chunks 4 = Ok ws ∧
    (∀ i c, chunks !! i = Some c → (∃ w, w ∈ ws ∧ w_id w = i) ↔ c ≠ []) ∧
    (∀ w, w ∈ ws → chunks !! w_id w = Some (w_todo w) ∧ w_local w = ∅) ∧
    NoDup (w_id <$> ws) ∧
    ((4 = 4)%Z → length ["f1.txt"; "f2.txt"; "f3.txt"] = 3 →
       length ws = 3 ∧ chunks !! 3 = Some [] ∧ ∀ w, w ∈ ws → w_id w ≠ 3) ∧
    (∀ s sched, ∃ results log,
       run fs_demo ["apple"; "banana"; "kiwi"] s
           ["f1.txt"; "f2.txt"; "f3.txt"] 4 sched
         = Ok (merge_results results, log) ∧
       results ≡ₚ (fun c => (search_keywords_in_files fs_demo c
                               ["apple"; "banana"; "kiwi"]).1)
                    <$> filter (fun c => c ≠ []) chunks).
Proof.
  apply (workers_only_for_nonempty_partitions fs_demo
           ["apple"; "banana"; "kiwi"] ["f1.txt"; "f2.txt"; "f3.txt"] 4).
Defined.

Example spawn_four_workers_three_files :
  chunkify ["f1.txt"; "f2.txt"; "f3.txt"] 4
    = Ok [["f1.txt"]; ["f2.txt"]; ["f3.txt"]; []] ∧
  spawn [["f1.txt"]; ["f2.txt"]; ["f3.txt"]; []] 4
    = Ok [Worker 0 ["f1.txt"] ∅; Worker 1 ["f2.txt"] ∅; Worker 2 ["f3.txt"] ∅].
Proof. split; reflexivity. Qed.

(** C9: in [run_multiprocessing], under every schedule. When the coordinator
    is through: every spawned process has put exactly one message; the
    coordinator has taken exactly one message per spawned process, in the
    order they were sent, so the collected list holds the Scanner's result of
    each spawned process once and the queue is empty; it has then joined
    every process, in spawn order, and every take and every put comes before
    the first join; the run returns the merge of the collected list. At any
    moment a message is taken only after it was put, and no join has returned
    unless one message per spawned process has been taken. And the coordinator
    takes a queued message whatever the processes do: its first loop waits
    for messages, not for the processes to end. *)
Theorem every_process_result_collected_once fs keywords (files : list string)
    (n : Z) sched :
  let processes := spawned files n in
  let ids := w_id <$> processes in
  let final := run_system fs keywords (m_measure (m_init processes)) sched
                 (m_init processes) in
  chunkify files n = Ok (chunks_of files (Z.to_nat n)) ∧
  spawn (chunks_of files (Z.to_nat n)) n = Ok processes ∧
  run_multiprocessing fs keywords files n sched =
    Ok (merge_results (p_results_list (m_pool final)).*2, p_log (m_pool final)) ∧
  puts_of (m_trace final) ≡ₚ ids ∧
  NoDup ids ∧
  gets_of (m_trace final) = puts_of (m_trace final) ∧
  (p_results_list (m_pool final)).*1 = gets_of (m_trace final) ∧
  length (p_results_list (m_pool final)) = length processes ∧
  p_results_list (m_pool final) ≡ₚ
    (fun w => (w_id w, (search_keywords_in_files fs (w_todo w) keywords).1))
      <$> processes ∧
  p_queue (m_pool final) = [] ∧ p_gets (m_pool final) = 0 ∧
  p_processes (m_pool final) = [] ∧ m_joins final = [] ∧
  (∃ drain, m_trace final = drain ++ (Join <$> ids) ∧ joins_of drain = []) ∧
  (∀ steps,
     let c := run_system fs keywords steps sched (m_init processes) in
     gets_of (m_trace c) `prefix_of` puts_of (m_trace c) ∧
     (joins_of (m_trace c) ≠ [] →
        p_gets (m_pool c) = 0 ∧
        length (p_results_list (m_pool c)) = length processes ∧
        gets_of (m_trace c) = puts_of (m_trace c))) ∧
  (∀ c m q k,
     p_gets (m_pool c) = S k → p_queue (m_pool c) = m :: q →
     ∃ c', coordinator_move c = Some c' ∧
           system_step fs keywords (length (p_processes (m_pool c))) c = Some c' ∧
           m_trace c' = m_trace c ++ [Get m.1] ∧
           p_results_list (m_pool c') = p_results_list (m_pool c) ++ [m] ∧
           p_processes (m_pool c') = p_processes (m_pool c)).
Proof.
  intros processes ids final. subst processes ids final.
  pose proof (m_inv_init (spawned files n)) as Hinit.
  destruct (run_system_invariant fs keywords _ (m_measure (m_init (spawned files n)))
              sched _ Hinit) as (Hinv & Hout & _).
  pose proof (run_system_measure fs keywords _ _ sched _ Hinit (le_n _)) as Hm.
  destruct (m_measure_0 _ _ Hinv Hm) as (Hps & Hg & Hq & Hj & Hdrain).
  destruct Hinv as ([_ Hsent] & Hputs & Hgets & _).
  set (final := run_system fs keywords (m_measure (m_init (spawned files n)))
                  sched (m_init (spawned files n))) in *.
  unfold p_outcome in Hout. rewrite Hps, Hq in Hout. simpl in Hout.
  rewrite !app_nil_r in Hout. rewrite Hq, app_nil_r in Hsent.
  split_and!.
  - apply chunkify_Ok.
  - apply spawn_chunks.
  - unfold run_multiprocessing.
    rewrite chunkify_Ok, res_bind_Ok, spawn_chunks, res_bind_Ok.
    cbv zeta. fold final. by rewrite Hg, Hj.
  - by rewrite Hputs, Hsent, Hout, <-list_fmap_compose.
  - apply NoDup_spawned_ids.
  - by rewrite Hgets, Hputs, Hsent.
  - done.
  - by rewrite Hout, length_fmap.
  - by rewrite Hout, finish_spawned.
  - done.
  - done.
  - done.
  - done.
  - done.
  - intros steps c.
    destruct (run_system_invariant fs keywords _ steps sched _ Hinit)
      as (Hinv' & Hout' & _).
    fold c in Hinv', Hout'.
    destruct Hinv' as ([Hg' Hsent'] & Hputs' & Hgets' & drain & joined & Htr & Hd & _ & Hjg).
    assert (gets_of (m_trace c) `prefix_of` puts_of (m_trace c)) as Hpre.
    { rewrite Hgets', Hputs', Hsent', fmap_app. by apply prefix_app_r. }
    split; [done|]. intros Hjoined.
    assert (joined ≠ []) as Hne.
    { intros ->. rewrite Htr, app_nil_r in Hjoined. done. }
    specialize (Hjg Hne). rewrite Hjg in Hg'.
    assert (p_queue (m_pool c) = []) as Hq' by (apply length_zero_iff_nil; lia).
    assert (p_processes (m_pool c) = []) as Hps' by (apply length_zero_iff_nil; lia).
    unfold p_outcome in Hout'. rewrite Hq', Hps' in Hout'. simpl in Hout'.
    rewrite !app_nil_r in Hout'. rewrite Hq', app_nil_r in Hsent'.
    split_and!; [done | | by rewrite Hgets', Hputs', Hsent'].
    by rewrite Hout', length_fmap.
  - intros c m q k Hgk Hqm.
    assert (coordinator_step (m_pool c) =
            Some (PState (p_processes (m_pool c)) q (p_results_list (m_pool c) ++ [m])
                         k (p_sent (m_pool c)) (p_log (m_pool c)))) as Hco.
    { unfold coordinator_step. by rewrite Hgk, Hqm. }
    assert (coordinator_move c =
            Some (MState (PState (p_processes (m_pool c)) q
                            (p_results_list (m_pool c) ++ [m]) k
                            (p_sent (m_pool c)) (p_log (m_pool c)))
                         (m_joins c) (m_trace c ++ [Get m.1]))) as Hcm.
    { unfold coordinator_move. by rewrite Hgk, Hqm, Hco. }
    eexists. split_and!; [exact Hcm | | done | done | done].
    unfold system_step. rewrite Hcm. cbv zeta.
    rewrite Nat.mod_small by lia.
    by rewrite lookup_ge_None_2.
Qed.

Example multiprocessing_trace :
  let processes := spawned ["f1.txt"; "f2.txt"; "f3.txt"] 4 in
  let final := run_system fs_demo ["apple"; "banana"]
                 (m_measure (m_init processes)) [2; 2; 2; 0; 1; 0; 0; 1; 0]
                 (m_init processes) in
  m_trace final =
    [Put 2; Get 2; Put 0; Put 1; Get 0; Get 1; Join 0; Join 1; Join 2] ∧
  (p_results_list (m_pool final)).*1 = [2; 0; 1] ∧
  p_queue (m_pool final) = [] ∧ p_gets (m_pool final) = 0 ∧
  m_joins final = [].
Proof. by vm_compute. Qed.

(** * Further properties of the code *)

(** ** Partition sizes *)

Lemma length_stride {A} (lst : list A) (i n : nat) :
  1 ≤ n → length (stride lst i n) = (length lst + n - 1 - i) `div` n.
Proof.
  intros Hn. revert i. induction lst as [|x rest IH]; intros i.
  - simpl. symmetry. apply Nat.div_small. lia.
  - destruct i as [|i].
    + change (stride (x :: rest) 0 n) with (x :: stride rest (n - 1) n).
      rewrite !length_cons, IH.
      replace (length rest + n - 1 - (n - 1)) with (length rest) by lia.
      replace (S (length rest) + n - 1 - 0) with (length rest + 1 * n) by lia.
      rewrite Nat.div_add by lia. lia.
    + change (stride (x :: rest) (S i) n) with (stride rest i n).
      rewrite length_cons, IH. f_equal. lia.
Qed.

Lemma balanced_quotient (len n j : nat) :
  1 ≤ n → j < n →
  (len + n - 1 - j) `div` n =
  len `div` n + (if decide (j < len `mod` n) then 1 else 0).
Proof.
  intros Hn Hj.
  pose proof (Nat.div_mod_eq len n) as Hdm.
  pose proof (Nat.mod_upper_bound len n) as Hr.
  set (q := len `div` n) in *. set (r := len `mod` n) in *.
  symmetry. case_decide.
  - apply (Nat.div_unique _ _ _ (r - 1 - j)); lia.
  - apply (Nat.div_unique _ _ _ (r + n - 1 - j)); lia.
Qed.

(** X1: [chunkify] splits into approximately equal parts, as its docstring
    says: with [n ≥ 1], partition [j] has [len / n] entries, plus one when
    [j < len mod n]. *)
Theorem chunkify_balanced {A} (lst : list A) (n : Z) :
  (1 ≤ n)%Z →
  ∃ chunks,
    chunkify lst n = Ok chunks ∧
    ∀ j c, chunks !! j = Some c →
      length c = length lst `div` Z.to_nat n +
                 (if decide (j < length lst `mod` Z.to_nat n) then 1 else 0).
Proof.
  intros Hn. exists (chunks_of lst (Z.to_nat n)). split; [apply chunkify_Ok|].
  intros j c [Hj ->]%lookup_chunks_of_Some.
  rewrite length_stride by lia. apply balanced_quotient; lia.
Qed.

Lemma chunkify_balanced_witness :
  (1 ≤ 3)%Z ∧
  ∃ chunks,
    chunkify ["a"; "b"; "c"; "d"; "e"; "f"; "g"] 3 = Ok chunks ∧
    ∀ j c, chunks !! j = Some c →
      length c = length ["a"; "b"; "c"; "d"; "e"; "f"; "g"] `div` Z.to_nat 3 +
                 (if decide (j < length ["a"; "b"; "c"; "d"; "e"; "f"; "g"]
                                   `mod` Z.to_nat 3) then 1 else 0).
Proof.
  split; [lia|].
  apply (chunkify_balanced ["a"; "b"; "c"; "d"; "e"; "f"; "g"] 3). lia.
Defined.

Lemma stride_nonempty {A} (lst : list A) (i n : nat) :
  1 ≤ n → stride lst i n ≠ [] ↔ i < length lst.
Proof.
  intros Hn. rewrite <-length_zero_iff_nil, length_stride by done.
  split.
  - intros Hne. destruct (decide (i < length lst)); [done|].
    destruct Hne. apply Nat.div_small. lia.
  - intros Hi Hz. apply Nat.div_small_iff in Hz; lia.
Qed.

Lemma bind_singleton_fmap {A B} (f : A → B) (g : A → list B) (l : list A) :
  (∀ x, x ∈ l → g x = [f x]) → l ≫= g = f <$> l.
Proof.
  induction l as [|x l IH]; intros Hg; [done|].
  rewrite bind_cons, fmap_cons, Hg, IH; [done | | apply list_elem_of_here].
  intros y Hy. apply Hg. by apply elem_of_cons; right.
Qed.

Lemma bind_all_nil {A B} (g : A → list B) (l : list A) :
  (∀ x, x ∈ l → g x = []) → l ≫= g = [].
Proof.
  induction l as [|x l IH]; intros Hg; [done|].
  rewrite bind_cons, Hg, IH; [done | | apply list_elem_of_here].
  intros y Hy. apply Hg. by apply elem_of_cons; right.
Qed.

Lemma spawned_prefix (files : list string) (n : Z) :
  spawned files n =
  (fun i => Worker i (stride files i (Z.to_nat n)) ∅)
    <$> seq 0 (Z.to_nat n `min` length files).
Proof.
  unfold spawned, range. set (N := Z.to_nat n).
  destruct (decide (N = 0)) as [->|HN]; [done|].
  assert (seq 0 N = seq 0 (N `min` length files) ++
                    seq (N `min` length files) (N - N `min` length files)) as ->.
  { replace N with (N `min` length files + (N - N `min` length files)) at 1
      by lia.
    by rewrite seq_app. }
  rewrite bind_app.
  rewrite (bind_all_nil _ (seq _ (N - _))), app_nil_r.
  - apply bind_singleton_fmap. intros i Hi%elem_of_seq.
    unfold worker_for. rewrite lookup_chunks_of by lia.
    assert (stride files i N ≠ []) as Hne by (apply stride_nonempty; lia).
    by destruct (stride files i N).
  - intros i Hi%elem_of_seq. unfold worker_for.
    rewrite lookup_chunks_of by lia.
    destruct (stride files i N) eqn:Hs; [done|].
    assert (stride files i N ≠ []) as Hne%stride_nonempty by (by rewrite Hs).
    all: lia.
Qed.

(** X2: the spawning loop of both strategies starts [min(n, len(files))]
    workers, for the partitions [0, 1, ..., min(n, len(files)) - 1]: the empty
    partitions are the last ones, and more workers than files are never
    started. *)
Theorem spawn_count (files : list string) (n : Z) :
  ∃ chunks ws,
    chunkify files n = Ok chunks ∧
    spawn chunks n = Ok ws ∧
    w_id <$> ws = seq 0 (Z.to_nat n `min` length files) ∧
    length ws = Z.to_nat n `min` length files.
Proof.
  exists (chunks_of files (Z.to_nat n)), (spawned files n). split_and!.
  - apply chunkify_Ok.
  - apply spawn_chunks.
  - rewrite spawned_prefix, <-list_fmap_compose. simpl. apply list_fmap_id.
  - by rewrite spawned_prefix, length_fmap, length_seq.
Qed.

Example spawn_count_more_workers_than_files :
  spawn [["a"]; ["b"]; []; []; []] 5 = Ok [Worker 0 ["a"] ∅; Worker 1 ["b"] ∅] ∧
  chunkify ["a"; "b"] 5 = Ok [["a"]; ["b"]; []; []; []].
Proof. split; reflexivity. Qed.

(** ** The Scanner on arbitrary lists *)

Lemma filter_eq_replicate {A} `{EqDecision A} (x y : A) (m : nat) :
  length (filter (eq x) (replicate m y)) = if decide (x = y) then m else 0.
Proof.
  induction m as [|m IH]; simpl.
  - by case_decide.
  - rewrite filter_cons. destruct (decide (x = y)); simpl; lia.
Qed.

Lemma occurrences_cons (l : list string) (x y : string) :
  occurrences (y :: l) x = (if decide (x = y) then 1 else 0) + occurrences l x.
Proof. unfold occurrences. rewrite filter_cons. by case_decide. Qed.

(** X3: the Scanner on any lists, duplicates included: a file that can be
    read and has the keyword is listed under it once per occurrence of the
    keyword in the keywords times once per occurrence of the file in the
    partition; any other file is not listed. *)
Theorem scanner_multiplicity fs (partition keywords : list string) (k f : string) :
  length (filter (eq f)
            (files_of (search_keywords_in_files fs partition keywords).1 k)) =
  if matches fs k f
  then occurrences keywords k * occurrences partition f
  else 0.
Proof.
  rewrite files_of_scan.
  induction partition as [|g partition IH].
  - simpl. destruct (matches fs k f); [|done]. unfold occurrences. simpl. lia.
  - rewrite hits_cons, filter_app, length_app, IH, hits_singleton.
    rewrite occurrences_cons.
    destruct (decide (f = g)) as [->|Hne].
    + destruct (matches fs k g).
      * rewrite filter_eq_replicate, decide_True by done. lia.
      * done.
    + destruct (matches fs k g).
      * rewrite filter_eq_replicate, decide_False by done.
        destruct (matches fs k f); lia.
      * destruct (matches fs k f); simpl; lia.
Qed.

Example scanner_multiplicity_demo :
  files_of (search_keywords_in_files fs_demo ["f3.txt"; "f1.txt"; "f3.txt"]
              ["apple"; "kiwi"; "apple"]).1 "apple"
  = ["f3.txt"; "f3.txt"; "f1.txt"; "f1.txt"; "f3.txt"; "f3.txt"].
Proof. reflexivity. Qed.

Lemma failures_app fs (files1 files2 : list string) :
  failures fs (files1 ++ files2) = failures fs files1 ++ failures fs files2.
Proof. unfold failures. apply bind_app. Qed.

(** X4: scanning is compositional, which is what lets the pool split the
    input: the Scanner's mapping on [a ++ b] is the Aggregator's merge of its
    mappings on [a] and on [b], and its output is the two outputs in order. *)
Theorem scanner_app fs (a b keywords : list string) :
  (search_keywords_in_files fs (a ++ b) keywords).1 =
    merge_one (search_keywords_in_files fs a keywords).1
              (search_keywords_in_files fs b keywords).1 ∧
  (search_keywords_in_files fs (a ++ b) keywords).2 =
    (search_keywords_in_files fs a keywords).2 ++
    (search_keywords_in_files fs b keywords).2.
Proof.
  split.
  - apply dict_wf_eq.
    + apply dict_wf_scan.
    + apply dict_wf_merge_one; apply dict_wf_scan.
    + intros k. by rewrite files_of_merge_one, !files_of_scan, hits_app.
  - unfold search_keywords_in_files. by rewrite !scan_loop_log, failures_app.
Qed.

Lemma failures_paths fs (files : list string) :
  diag_path <$> failures fs files =
  filter (fun f => can_read fs f = false) files.
Proof.
  induction files as [|f files IH]; [done|].
  rewrite failures_cons, fmap_app, IH, filter_cons. unfold failures at 1, can_read.
  rewrite bind_cons. destruct (fs f); simpl; by rewrite ?decide_True, ?decide_False.
Qed.

Lemma failures_kind fs (files : list string) d :
  d ∈ failures fs files →
  match d with
  | DiagOSError f e => fs f = RaisesOSError e
  | DiagUnexpected f e => fs f = RaisesException e
  end.
Proof.
  unfold failures. intros (f & Hd & _)%list_elem_of_bind.
  destruct (fs f) eqn:Hf.
  - by apply elem_of_nil in Hd.
  - by apply list_elem_of_singleton in Hd as ->.
  - by apply list_elem_of_singleton in Hd as ->.
Qed.

(** X5: what the Scanner prints: one diagnostic per entry of the partition
    that cannot be read, in the partition's order, each naming its file and
    carrying the error of that file, an [OSError] kept apart from any other
    exception; nothing is printed for a file that was read. *)
Theorem scanner_diagnostics fs (partition keywords : list string) :
  let log := (search_keywords_in_files fs partition keywords).2 in
  diag_path <$> log = filter (fun f => can_read fs f = false) partition ∧
  (∀ d, d ∈ log →
     match d with
     | DiagOSError f e => fs f = RaisesOSError e
     | DiagUnexpected f e => fs f = RaisesException e
     end).
Proof.
  unfold search_keywords_in_files. rewrite scan_loop_log. split.
  - apply failures_paths.
  - apply failures_kind.
Qed.

Lemma starts_with_empty s : starts_with "" s = true.
Proof. done. Qed.

Lemma contains_empty s : contains "" s = true.
Proof. destruct s; done. Qed.

(** X6: the empty keyword is in every text ([keyword in content] holds for
    the empty string), so when it is among the keywords the Scanner lists
    under it every file of the partition that can be read, in order. *)
Theorem scanner_empty_keyword fs (partition keywords : list string) :
  NoDup keywords → "" ∈ keywords →
  files_of (search_keywords_in_files fs partition keywords).1 "" =
  filter (fun f => can_read fs f = true) partition.
Proof.
  intros Hnd Hin. rewrite files_of_scan, hits_NoDup, decide_True by done.
  apply list_filter_iff. intros f. unfold matches, can_read.
  destruct (fs f); [by rewrite contains_empty | done | done].
Qed.

Lemma scanner_empty_keyword_witness :
  NoDup ["apple"; ""] ∧ "" ∈ ["apple"; ""] ∧
  files_of (search_keywords_in_files fs_demo
              ["f1.txt"; "missing.txt"; "f2.txt"] ["apple"; ""]).1 "" =
  filter (fun f => can_read fs_demo f = true) ["f1.txt"; "missing.txt"; "f2.txt"].
Proof.
  assert (NoDup ["apple"; ""]) as Hnd
    by (by apply (bool_decide_unpack _); vm_compute).
  assert ("" ∈ ["apple"; ""]) as Hin
    by (by apply (bool_decide_unpack _); vm_compute).
  split_and!; [done | done |].
  by apply (scanner_empty_keyword fs_demo
              ["f1.txt"; "missing.txt"; "f2.txt"] ["apple"; ""]).
Defined.

Lemma elem_of_hits fs (keywords files : list string) k f :
  f ∈ hits fs keywords k files ↔
  f ∈ files ∧ k ∈ keywords ∧ matches fs k f = true.
Proof.
  unfold hits. rewrite list_elem_of_bind. split.
  - intros (g & Hin & Hg). destruct (matches fs k g) eqn:Hm; [|by apply elem_of_nil in Hin].
    apply elem_of_replicate in Hin as [-> Hocc]. split_and!; [done | | done].
    unfold occurrences in Hocc.
    destruct (filter (eq k) keywords) as [|k' l] eqn:Hf; [done|].
    assert (k' ∈ filter (eq k) keywords) as Hk' by (rewrite Hf; apply list_elem_of_here).
    by apply list_elem_of_filter in Hk' as [<- ?].
  - intros (Hf & Hk & Hm). exists f. split; [|done]. rewrite Hm.
    apply elem_of_replicate. split; [done|]. unfold occurrences.
    assert (k ∈ filter (eq k) keywords) as Hin by (by apply list_elem_of_filter).
    destruct (filter (eq k) keywords); [by apply elem_of_nil in Hin | done].
Qed.

(** X7: the Scanner never makes anything up: a file is listed under a
    keyword only when the keyword was asked for, the file is in the partition
    and its text was read and has the keyword; an entry never has an empty
    list; so without keywords, or without files, the mapping is empty. *)
Theorem scanner_sound fs (partition keywords : list string) :
  let r := (search_keywords_in_files fs partition keywords).1 in
  (∀ k f, f ∈ files_of r k ↔
          f ∈ partition ∧ k ∈ keywords ∧
          ∃ content, fs f = Content content ∧ contains k content = true) ∧
  (∀ k l, r !! k = Some l → l ≠ [] ∧ k ∈ keywords) ∧
  (keywords = [] ∨ partition = [] → r = ∅).
Proof.
  intros r.
  assert (∀ k f, f ∈ files_of r k ↔
                 f ∈ partition ∧ k ∈ keywords ∧
                 ∃ content, fs f = Content content ∧ contains k content = true)
    as Hin.
  { intros k f. unfold r. rewrite files_of_scan, elem_of_hits. unfold matches.
    split; intros (? & ? & Hm); (split_and!; [done | done |]).
    - destruct (fs f); [eauto | done | done].
    - by destruct Hm as (c & -> & ?). }
  assert (∀ k l, r !! k = Some l → l ≠ [] ∧ k ∈ keywords) as Hkeys.
  { intros k l Hl.
    apply (dict_wf_lookup_Some _ _ _ (dict_wf_scan fs keywords partition)) in Hl
      as [Hl Hne].
    split; [done|]. destruct l as [|f l]; [done|].
    assert (f ∈ files_of r k) as Hf
      by (unfold r; rewrite Hl; apply list_elem_of_here).
    apply Hin in Hf. tauto. }
  split_and!; [done | done |].
  intros Hempty. apply map_empty. intros k.
  destruct (r !! k) as [l|] eqn:Hl; [|done].
  destruct (Hkeys k l Hl) as [Hne Hk]. destruct l as [|f l]; [done|].
  assert (f ∈ files_of r k) as Hf.
  { unfold files_of. rewrite Hl. apply list_elem_of_here. }
  apply Hin in Hf as (Hf & _ & _).
  destruct Hempty as [-> | ->]; [by apply elem_of_nil in Hk | by apply elem_of_nil in Hf].
Qed.

(** ** The Aggregator on batches *)

Lemma dict_eq_by (d1 d2 : dict) :
  (∀ k, is_Some (d1 !! k) ↔ is_Some (d2 !! k)) →
  (∀ k, files_of d1 k = files_of d2 k) → d1 = d2.
Proof.
  intros Hdom Hfiles. apply map_eq. intros k.
  specialize (Hdom k). specialize (Hfiles k). unfold files_of in Hfiles.
  destruct (d1 !! k) as [l1|], (d2 !! k) as [l2|]; simpl in *.
  - by subst.
  - destruct Hdom as [Hd _]. by destruct Hd as [? [=]].
  - destruct Hdom as [_ Hd]. by destruct Hd as [? [=]].
  - done.
Qed.

(** X8: merging composes: merging the merge of one batch of partial results
    with the merge of another gives the merge of the two batches together,
    and merging a single partial result gives it back, empty lists
    included. *)
Theorem merge_results_batches (batch1 batch2 : list dict) (res : dict) :
  merge_results [merge_results batch1; merge_results batch2] =
    merge_results (batch1 ++ batch2) ∧
  merge_results [res] = res.
Proof.
  split.
  - apply dict_eq_by.
    + intros k. rewrite !merge_results_is_Some. split.
      * intros (r & Hr & Hk).
        apply elem_of_cons in Hr as [->|Hr%list_elem_of_singleton].
        -- apply merge_results_is_Some in Hk as (r' & Hr' & Hk').
           exists r'. split; [|done]. apply elem_of_app. by left.
        -- subst r. apply merge_results_is_Some in Hk as (r' & Hr' & Hk').
           exists r'. split; [|done]. apply elem_of_app. by right.
      * intros (r & [Hr|Hr]%elem_of_app & Hk).
        -- exists (merge_results batch1). split; [apply list_elem_of_here|].
           apply merge_results_is_Some. eauto.
        -- exists (merge_results batch2).
           split; [apply elem_of_cons; right; apply list_elem_of_here|].
           apply merge_results_is_Some. eauto.
    + intros k. rewrite !files_of_merge_results, fmap_app, concat_app.
      simpl. by rewrite !files_of_merge_results, app_nil_r.
  - unfold merge_results. simpl. apply merge_one_empty.
Qed.

(** X9: the order in which partial results reach the Aggregator changes
    only the order inside the lists: for two orders of the same partial
    results, the merged mappings have the same keywords and, under each
    keyword, the same files with the same multiplicities. *)
Theorem merge_results_any_order (results1 results2 : list dict) :
  results1 ≡ₚ results2 →
  dom (merge_results results1) = dom (merge_results results2) ∧
  ∀ k, files_of (merge_results results1) k ≡ₚ
       files_of (merge_results results2) k.
Proof.
  intros Hp. split.
  - apply set_eq. intros k. rewrite !elem_of_dom, !merge_results_is_Some.
    split; intros (r & Hr & Hk); exists r; (split; [|done]).
    + by rewrite <-Hp.
    + by rewrite Hp.
  - intros k. by apply merge_results_perm.
Qed.

Lemma merge_results_any_order_witness :
  [ ({["a" := ["x"]]} : dict); {["a" := ["y"]; "b" := []]} ] ≡ₚ
  [ {["a" := ["y"]; "b" := []]}; {["a" := ["x"]]} ] ∧
  dom (merge_results [ {["a" := ["x"]]}; {["a" := ["y"]; "b" := []]} ]) =
  dom (merge_results [ {["a" := ["y"]; "b" := []]}; {["a" := ["x"]]} ]) ∧
  ∀ k, files_of (merge_results [ {["a" := ["x"]]}; {["a" := ["y"]; "b" := []]} ]) k ≡ₚ
       files_of (merge_results [ {["a" := ["y"]; "b" := []]}; {["a" := ["x"]]} ]) k.
Proof.
  assert ([ ({["a" := ["x"]]} : dict); {["a" := ["y"]; "b" := []]} ] ≡ₚ
          [ {["a" := ["y"]; "b" := []]}; {["a" := ["x"]]} ]) as Hp
    by apply Permutation_swap.
  split; [done|].
  by apply (merge_results_any_order
              [ {["a" := ["x"]]}; {["a" := ["y"]; "b" := []]} ]
              [ {["a" := ["y"]; "b" := []]}; {["a" := ["x"]]} ]).
Defined.

(** ** Runs: keys, reports, output and edge inputs *)

(** X10: what a run returns for [n ≥ 1] workers: a keyword is a key of the
    mapping exactly when it was asked for and some input file was read and
    has it; no key has an empty list (a keyword without a match has no
    entry); and every listed file is an input file. *)
Theorem run_keys fs keywords s (files : list string) (n : Z) sched :
  (1 ≤ n)%Z →
  ∃ r log,
    run fs keywords s files n sched = Ok (r, log) ∧
    (∀ k, k ∈ dom r ↔
          k ∈ keywords ∧
          ∃ f content, f ∈ files ∧ fs f = Content content ∧
                       contains k content = true) ∧
    (∀ k l, r !! k = Some l → l ≠ []) ∧
    (∀ k f, f ∈ files_of r k → f ∈ files).
Proof.
  intros Hn.
  destruct (run_Ok fs keywords s files n sched) as (rs & log & Hr & _).
  destruct (run_content _ _ _ _ _ _ _ _ Hn Hr) as (Hwf & Hc & _).
  exists (merge_results rs.*2), log. split_and!; [done | | |].
  - intros k. rewrite elem_of_dom, <-not_eq_None_Some.
    rewrite (dict_wf_lookup_None _ _ Hwf). split.
    + intros Hne. destruct (files_of (merge_results rs.*2) k) as [|f l] eqn:Hl; [done|].
      assert (f ∈ hits fs keywords k files) as Hf.
      { rewrite <-Hc, Hl. apply list_elem_of_here. }
      apply elem_of_hits in Hf as (Hf & Hk & Hm). split; [done|].
      unfold matches in Hm. destruct (fs f) as [content| |] eqn:Hfs; [|done..].
      by exists f, content.
    + intros (Hk & f & content & Hf & Hfs & Hm) Hnil.
      assert (f ∈ hits fs keywords k files) as Hin.
      { apply elem_of_hits. unfold matches. by rewrite Hfs. }
      rewrite <-Hc, Hnil in Hin. by apply elem_of_nil in Hin.
  - intros k l Hl ->. by apply (Hwf k).
  - intros k f. rewrite Hc, elem_of_hits. tauto.
Qed.

Lemma run_keys_witness :
  (1 ≤ 2)%Z ∧
  ∃ r log,
    run fs_demo ["apple"; "kiwi"] Threads ["f1.txt"; "f2.txt"; "f3.txt"] 2 [1]
      = Ok (r, log) ∧
    (∀ k, k ∈ dom r ↔
          k ∈ ["apple"; "kiwi"] ∧
          ∃ f content, f ∈ ["f1.txt"; "f2.txt"; "f3.txt"] ∧
                       fs_demo f = Content content ∧
                       contains k content = true) ∧
    (∀ k l, r !! k = Some l → l ≠ []) ∧
    (∀ k f, f ∈ files_of r k → f ∈ ["f1.txt"; "f2.txt"; "f3.txt"]).
Proof.
  split; [lia|].
  apply (run_keys fs_demo ["apple"; "kiwi"] Threads
           ["f1.txt"; "f2.txt"; "f3.txt"] 2 [1]). lia.
Defined.

Lemma report_counts (r : dict) : report r ≡ₚ map_to_list (length <$> r).
Proof.
  unfold report. rewrite map_to_list_fmap.
  erewrite list_fmap_ext; [done|]. by intros i [k l] _.
Qed.

Lemma counts_eq (r1 r2 : dict) :
  dict_wf r1 → dict_wf r2 → (∀ k, files_of r1 k ≡ₚ files_of r2 k) →
  length <$> r1 = length <$> r2.
Proof.
  intros Hwf1 Hwf2 Hperm. apply map_eq. intros k. rewrite !lookup_fmap.
  specialize (Hperm k).
  destruct (r1 !! k) as [l1|] eqn:H1, (r2 !! k) as [l2|] eqn:H2; simpl.
  - unfold files_of in Hperm. rewrite H1, H2 in Hperm. simpl in Hperm.
    by rewrite Hperm.
  - apply (dict_wf_lookup_None _ _ Hwf2) in H2. rewrite H2 in Hperm.
    apply Permutation_nil_r in Hperm. unfold files_of in Hperm.
    rewrite H1 in Hperm. simpl in Hperm. subst. by destruct (Hwf1 k).
  - apply (dict_wf_lookup_None _ _ Hwf1) in H1. rewrite H1 in Hperm.
    apply Permutation_nil_l in Hperm. unfold files_of in Hperm.
    rewrite H2 in Hperm. simpl in Hperm. subst. by destruct (Hwf2 k).
  - done.
Qed.

(** X11: the report the main block prints after a run, a keyword with the
    number of its files per entry, is the same set of lines for both
    strategies, every schedule and every worker count [≥ 1], so also for two
    runs with the same arguments. *)
Theorem report_independent fs keywords s1 s2 (files : list string) (n1 n2 : Z)
    sched1 sched2 :
  (1 ≤ n1)%Z → (1 ≤ n2)%Z →
  ∃ r1 log1 r2 log2,
    run fs keywords s1 files n1 sched1 = Ok (r1, log1) ∧
    run fs keywords s2 files n2 sched2 = Ok (r2, log2) ∧
    report r1 ≡ₚ report r2.
Proof.
  intros Hn1 Hn2.
  destruct (run_Ok fs keywords s1 files n1 sched1) as (rs1 & log1 & Hr1 & _).
  destruct (run_Ok fs keywords s2 files n2 sched2) as (rs2 & log2 & Hr2 & _).
  destruct (run_content _ _ _ _ _ _ _ _ Hn1 Hr1) as (Hwf1 & Hc1 & _).
  destruct (run_content _ _ _ _ _ _ _ _ Hn2 Hr2) as (Hwf2 & Hc2 & _).
  eexists _, _, _, _. split_and!; [done | done |].
  rewrite !report_counts.
  rewrite (counts_eq (merge_results rs1.*2) (merge_results rs2.*2)); [done..|].
  intros k. by rewrite Hc1, Hc2.
Qed.

Lemma report_independent_witness :
  (1 ≤ 4)%Z ∧ (1 ≤ 4)%Z ∧
  ∃ r1 log1 r2 log2,
    run fs_demo ["apple"; "banana"] Threads
        ["f1.txt"; "f2.txt"; "f3.txt"] 4 [2; 1] = Ok (r1, log1) ∧
    run fs_demo ["apple"; "banana"] Processes
        ["f1.txt"; "f2.txt"; "f3.txt"] 4 [0; 3] = Ok (r2, log2) ∧
    report r1 ≡ₚ report r2.
Proof.
  split_and!; [lia | lia |].
  apply (report_independent fs_demo ["apple"; "banana"] Threads Processes
           ["f1.txt"; "f2.txt"; "f3.txt"] 4 4 [2; 1] [0; 3]); lia.
Defined.

Lemma all_readable_no_failure fs (files : list string) :
  Forall (fun f => can_read fs f = true) files →
  filter (fun f => can_read fs f = false) files = [].
Proof.
  induction 1 as [|f l Hf _ IH]; [done|].
  rewrite filter_cons, decide_False; [exact IH | by rewrite Hf].
Qed.

(** X12: what a run with [n ≥ 1] workers prints: one diagnostic per entry
    of the input that cannot be read, in some order, each naming its file and
    carrying that file's error; with all files readable nothing is printed.
    The diagnostics do not depend on the keywords. *)
Theorem run_diagnostics fs keywords s (files : list string) (n : Z) sched :
  (1 ≤ n)%Z →
  ∃ r log,
    run fs keywords s files n sched = Ok (r, log) ∧
    diag_path <$> log ≡ₚ filter (fun f => can_read fs f = false) files ∧
    (∀ d, d ∈ log →
       match d with
       | DiagOSError f e => fs f = RaisesOSError e
       | DiagUnexpected f e => fs f = RaisesException e
       end) ∧
    (Forall (fun f => can_read fs f = true) files → log = []).
Proof.
  intros Hn.
  destruct (run_Ok fs keywords s files n sched) as (rs & log & Hr & _).
  destruct (run_content _ _ _ _ _ _ _ _ Hn Hr) as (_ & _ & Hlog).
  exists (merge_results rs.*2), log.
  assert (diag_path <$> log ≡ₚ filter (fun f => can_read fs f = false) files)
    as Hpaths by (by rewrite Hlog, failures_paths).
  split_and!; [done | done | |].
  - intros d Hd. rewrite Hlog in Hd. by apply failures_kind in Hd.
  - intros Hall. apply fmap_nil_inv with diag_path, Permutation_nil_r.
    rewrite Hpaths. by rewrite all_readable_no_failure.
Qed.

Lemma run_diagnostics_witness :
  (1 ≤ 2)%Z ∧
  ∃ r log,
    run fs_demo ["apple"] Processes ["f1.txt"; "gone.txt"; "f2.txt"] 2 [2; 1]
      = Ok (r, log) ∧
    diag_path <$> log ≡ₚ
      filter (fun f => can_read fs_demo f = false) ["f1.txt"; "gone.txt"; "f2.txt"] ∧
    (∀ d, d ∈ log →
       match d with
       | DiagOSError f e => fs_demo f = RaisesOSError e
       | DiagUnexpected f e => fs_demo f = RaisesException e
       end) ∧
    (Forall (fun f => can_read fs_demo f = true) ["f1.txt"; "gone.txt"; "f2.txt"] →
     log = []).
Proof.
  split; [lia|].
  apply (run_diagnostics fs_demo ["apple"] Processes
           ["f1.txt"; "gone.txt"; "f2.txt"] 2 [2; 1]). lia.
Defined.

Lemma hits_no_keywords fs k (files : list string) : hits fs [] k files = [].
Proof.
  unfold hits. apply bind_all_nil. intros f _. by destruct (matches fs k f).
Qed.

(** X13: edge inputs of a run, for any worker count: with no files no
    worker is started and the empty mapping is returned with nothing printed;
    with no keywords the mapping is empty too (the files are still read). *)
Theorem run_empty_inputs fs keywords s (files : list string) (n : Z) sched :
  spawn (chunks_of ([] : list string) (Z.to_nat n)) n = Ok [] ∧
  run fs keywords s [] n sched = Ok (∅, []) ∧
  ∃ log, run fs [] s files n sched = Ok (∅, log).
Proof.
  assert (spawned [] n = []) as Hsp.
  { rewrite spawned_prefix. simpl. by rewrite Nat.min_0_r. }
  split_and!.
  - by rewrite spawn_chunks, Hsp.
  - destruct (run_Ok fs keywords s [] n sched) as (rs & log & Hr & Hres & Hlog).
    rewrite Hsp in *. apply Permutation_nil_r in Hres, Hlog. by subst.
  - destruct (decide (1 ≤ n)%Z) as [Hn|Hn].
    + destruct (run_Ok fs [] s files n sched) as (rs & log & Hr & _).
      destruct (run_content _ _ _ _ _ _ _ _ Hn Hr) as (Hwf & Hc & _).
      exists log. rewrite Hr. do 2 f_equal.
      apply dict_wf_eq; [done | apply dict_wf_empty |].
      intros k. rewrite files_of_empty. apply Permutation_nil_r.
      by rewrite Hc, hits_no_keywords.
    + exists []. apply run_nonpos. lia.
Qed.

(** ** Threads that finish in spawn order *)

Section SpawnOrder.
Variable fs : string → read_outcome.
Variable keywords : list string.

Local Abbreviation finish := (finish fs keywords).
Local Abbreviation pending := (pending fs keywords).
Local Abbreviation run_threads := (run_threads fs keywords).

Lemma pick_first {A} (x : A) (l : list A) : pick 0 (x :: l) = Some (0, x).
Proof. unfold pick. by rewrite Nat.Div0.mod_0_l. Qed.

Lemma run_threads_step fuel sched st i w :
  pick (hd 0 sched) (t_threads st) = Some (i, w) →
  run_threads (S fuel) sched st =
  run_threads fuel (tl sched) (thread_step fs keywords i w st).
Proof. intros Hp. simpl. by rewrite Hp. Qed.

Lemma worker_step_cons id f rest d :
  worker_step fs keywords (Worker id (f :: rest) d) =
  Scanned (Worker id rest (scan_file fs keywords f d).1)
          (scan_file fs keywords f d).2.
Proof.
  unfold worker_step. simpl. by destruct (scan_file fs keywords f d).
Qed.

Lemma run_threads_first todo id d ws results log fuel :
  run_threads (S (length todo) + fuel) [] (TState (Worker id todo d :: ws) results log) =
  run_threads fuel []
    (TState ws (results ++ [finish (Worker id todo d)])
            (log ++ pending (Worker id todo d))).
Proof.
  revert d log. induction todo as [|f rest IH]; intros d log.
  - rewrite (run_threads_step _ _ _ 0 (Worker id [] d)) by apply pick_first.
    unfold thread_step, finish, pending. simpl. by rewrite app_nil_r.
  - change (S (length (f :: rest)) + fuel) with (S (S (length rest) + fuel)).
    rewrite (run_threads_step _ _ _ 0 (Worker id (f :: rest) d)) by apply pick_first.
    pose proof (worker_step_cons id f rest d) as Hstep.
    destruct (worker_step_scanned _ _ _ _ _ Hstep) as (Hf & Hp & _).
    unfold thread_step. rewrite Hstep.
    cbn [t_threads t_results t_log].
    change (<[0:=?w']> (?w :: ws)) with (w' :: ws).
    rewrite IH, Hf, <-Hp. by rewrite app_assoc.
Qed.

Lemma run_threads_in_order ws results log :
  run_threads (work ws) [] (TState ws results log) =
  TState [] (results ++ (finish <$> ws)) (log ++ (ws ≫= pending)).
Proof.
  revert results log. induction ws as [|[id todo d] ws IH]; intros results log.
  - simpl. by rewrite !app_nil_r.
  - change (work (Worker id todo d :: ws)) with (S (length todo) + work ws).
    rewrite run_threads_first, IH, fmap_cons, bind_cons.
    by rewrite <-!app_assoc.
Qed.
End SpawnOrder.

Lemma concat_fmap_filter_nonempty {A B} (g : list A → list B) (l : list (list A)) :
  g [] = [] →
  concat (g <$> filter (fun c => c ≠ []) l) = concat (g <$> l).
Proof.
  intros Hg. induction l as [|c l IH]; [done|]. rewrite filter_cons.
  destruct (decide (c ≠ [])) as [Hc|Hc].
  - rewrite !fmap_cons. cbn [concat]. by rewrite IH.
  - apply dec_stable in Hc. subst c. rewrite fmap_cons. cbn [concat].
    by rewrite Hg, IH.
Qed.

(** X14: the order of a keyword's list comes from the order in which the
    threads append their results. When every thread is through before the
    next one takes a step, [run_threading] returns, under each keyword, the
    Scanner's list for partition 0, then the one for partition 1, and so on,
    and prints the diagnostics partition by partition; this is the input
    order only with one worker. *)
Theorem threading_in_spawn_order fs keywords (files : list string) (n : Z) :
  ∃ chunks r log,
    chunkify files n = Ok chunks ∧
    run_threading fs keywords files n [] = Ok (r, log) ∧
    (∀ k, files_of r k =
          concat ((fun c => files_of (search_keywords_in_files fs c keywords).1 k)
                    <$> chunks)) ∧
    log = concat ((fun c => (search_keywords_in_files fs c keywords).2) <$> chunks).
Proof.
  exists (chunks_of files (Z.to_nat n)).
  eexists _, _. split; [apply chunkify_Ok|].
  unfold run_threading.
  rewrite chunkify_Ok, res_bind_Ok, spawn_chunks, res_bind_Ok.
  rewrite run_threads_in_order. simpl. split; [done|]. split.
  - intros k. rewrite files_of_merge_results, partials_spawned.
    rewrite <-list_fmap_compose.
    by rewrite (concat_fmap_filter_nonempty
                  (fun c => files_of (search_keywords_in_files fs c keywords).1 k)).
  - rewrite pending_spawned, concat_filter_nonempty.
    generalize (chunks_of files (Z.to_nat n)). intros chunks.
    induction chunks as [|c chunks IH]; [done|].
    simpl. rewrite failures_app, IH. f_equal.
    unfold search_keywords_in_files. by rewrite scan_loop_log.
Qed.

Example threading_in_spawn_order_demo :
  (fun out => match out with
              | Ok (r, log) => Some (map_to_list r, log)
              | _ => None
              end)
    (run_threading fs_demo ["apple"; "banana"]
       ["f1.txt"; "f2.txt"; "f3.txt"; "f2.txt"] 2 [])
  = Some ([("apple", ["f1.txt"; "f3.txt"]);
           ("banana", ["f3.txt"; "f2.txt"; "f2.txt"])], []).
Proof. vm_compute. reflexivity. Qed.

(** ** The pool at any moment *)

Section PoolInvariant.
Variable fs : string → read_outcome.
Variable keywords : list string.



Lemma run_threads_invariant fuel sched st :
  t_outcome fs keywords (run_threads fs keywords fuel sched st)
  ≡ₚ t_outcome fs keywords st.
Proof.
  revert sched st. induction fuel as [|fuel IH]; intros sched st; simpl; [done|].
  destruct (pick (hd 0 sched) (t_threads st)) as [[i w]|] eqn:Hpick; [|done].
  apply pick_Some in Hpick.
  destruct (thread_step_preserves fs keywords i w st Hpick) as (_ & Ho & _).
  by rewrite IH.
Qed.
End PoolInvariant.

Lemma elem_of_finish_spawned fs keywords (files : list string) (n : Z) i d :
  (i, d) ∈ finish fs keywords <$> spawned files n →
  ∃ c, chunks_of files (Z.to_nat n) !! i = Some c ∧ c ≠ [] ∧
       d = (search_keywords_in_files fs c keywords).1.
Proof.
  intros (w & Hw & Hin)%list_elem_of_fmap.
  apply elem_of_spawned in Hin as (j & c & Hc & Hne & ->).
  injection Hw as -> ->. eauto.
Qed.


(** X16: the thread pool at any moment of [run_threading], however the
    threads interleave: every spawned thread is either still live or has
    appended exactly one result to the shared list, no thread has appended
    twice, and every result in the list is the complete Scanner result of
    the thread's non-empty partition. *)
Theorem threading_invariant fs keywords (files : list string) (n : Z)
    sched (steps : nat) :
  let threads := spawned files n in
  let st := run_threads fs keywords steps sched (TState threads [] []) in
  length (t_results st) + length (t_threads st) = length threads ∧
  NoDup (t_results st).*1 ∧
  (∀ i d, (i, d) ∈ t_results st →
     ∃ c, chunks_of files (Z.to_nat n) !! i = Some c ∧ c ≠ [] ∧
          d = (search_keywords_in_files fs c keywords).1).
Proof.
  intros threads st. subst threads.
  pose proof (run_threads_invariant fs keywords steps sched
                (TState (spawned files n) [] [])) as Hout.
  fold st in Hout. unfold t_outcome in Hout. simpl in Hout.
  split_and!.
  - apply Permutation_length in Hout.
    by rewrite length_app, !length_fmap in Hout.
  - assert (NoDup ((t_results st).*1 ++
                   (finish fs keywords <$> t_threads st).*1)) as Hnd.
    { rewrite <-fmap_app, Hout, <-list_fmap_compose. apply NoDup_spawned_ids. }
    by apply NoDup_app in Hnd as [? _].
  - intros i d Hin. apply (elem_of_finish_spawned fs keywords files n).
    rewrite <-Hout. apply elem_of_app. by left.
Qed.

(** ** The test corpus *)

Lemma length_append (s t : string) :
  String.length (s +:+ t) = String.length s + String.length t.
Proof.
  induction s as [|a s IH]; [done|]. rewrite append_cons. simpl. by rewrite IH.
Qed.

Lemma append_inj_r (s1 s2 t : string) : s1 +:+ t = s2 +:+ t → s1 = s2.
Proof.
  revert s2. induction s1 as [|a s1 IH]; intros s2 Heq.
  - destruct s2 as [|b s2]; [done|].
    apply (f_equal String.length) in Heq.
    rewrite append_empty, append_cons in Heq. simpl in Heq.
    rewrite length_append in Heq. lia.
  - destruct s2 as [|b s2].
    + apply (f_equal String.length) in Heq.
      rewrite append_empty, append_cons in Heq. simpl in Heq.
      rewrite length_append in Heq. lia.
    + rewrite !append_cons in Heq. injection Heq as -> Heq.
      f_equal. by apply IH.
Qed.

Lemma path_join_relative (directory : string) :
  ∃ base, ∀ name, starts_with "/" name = false →
    path_join directory name = base +:+ name.
Proof.
  unfold path_join.
  destruct (String.eqb directory "" || ends_with_slash directory) eqn:Hd.
  - exists directory. by intros name ->.
  - exists (directory +:+ "/"). intros name ->. cbv iota. clear.
    induction directory as [|a d IH]; [done|].
    change (String a (d +:+ "/" +:+ name) = String a ((d +:+ "/") +:+ name)).
    by rewrite IH.
Qed.

Lemma test_file_name_inj (directory : string) (i j : nat) :
  test_file_name directory i = test_file_name directory j → i = j.
Proof.
  unfold test_file_name.
  destruct (path_join_relative directory) as [base Hbase].
  rewrite !Hbase by done. intros Heq.
  apply (inj (String.app base)) in Heq.
  apply (inj (String.app "file_")) in Heq.
  apply append_inj_r in Heq. by apply (inj pretty) in Heq.
Qed.

Section CorpusFacts.
Context {FS : Type}.
Variable path_exists : FS → string → bool.
Variable makedirs : FS → string → io FS unit.
Variable write_text : FS → string → string → io FS unit.

Local Abbreviation create_one := (create_one FS write_text).
Local Abbreviation create_test_files :=
  (create_test_files FS path_exists makedirs write_text).

Lemma create_loop_fails directory e st (l : list nat) :
  foldl (create_one directory) (Fails e st) l = Fails e st.
Proof. induction l as [|i l IH]; [done|]. simpl. apply IH. Qed.

Lemma create_loop_paths directory (l : list nat) paths st paths' st' :
  foldl (create_one directory) (Done paths st) l = Done paths' st' →
  paths' = paths ++ (test_file_name directory <$> l).
Proof.
  revert paths st. induction l as [|i l IH]; intros paths st; simpl.
  - intros [= <- <-]. by rewrite app_nil_r.
  - destruct (write_text st (test_file_name directory i) (test_file_content i))
      as [[] st1|e st1].
    + intros ->%IH. by rewrite <-app_assoc.
    + by rewrite create_loop_fails.
Qed.

Lemma create_test_files_loop directory (num_files : Z) st :
  create_test_files directory num_files st =
  match (if path_exists st directory then Done () st
         else makedirs st directory) with
  | Fails e st' => Fails e st'
  | Done _ st' => foldl (create_one directory) (Done [] st') (range num_files)
  end.
Proof. reflexivity. Qed.

Lemma range_S (k : nat) : range (Z.of_nat (S k)) = range (Z.of_nat k) ++ [k].
Proof. unfold range. rewrite !Nat2Z.id. by rewrite seq_S. Qed.

Lemma range_split (k : nat) (n : Z) :
  k < Z.to_nat n →
  range n = range (Z.of_nat k) ++ k :: seq (S k) (Z.to_nat n - S k).
Proof.
  intros Hk. unfold range. rewrite Nat2Z.id.
  replace (Z.to_nat n) with (k + S (Z.to_nat n - S k)) at 1 by lia.
  by rewrite seq_app.
Qed.
End CorpusFacts.

(** X17: the outcomes of [create_test_files] over any operating system.
    When it returns, the paths are the names [file_0.txt], [file_1.txt], ...
    under the directory, in order, one per index below [num_files] and
    pairwise distinct, and a missing directory has been made.  When the
    directory is missing and [os.makedirs] raises, the call raises the same
    error and writes nothing.  When the directory exists, [os.makedirs] is
    not called.  With no file to write the file system is left as
    [os.makedirs] left it.  The files are written in the order of their
    indices: after [k] files, a successful write of file [k] gives the result
    for [k + 1] files, and a failing write ends every longer call with its
    error, in the state the failing write left. *)
Theorem create_test_files_outcomes {FS : Type}
    (path_exists : FS → string → bool)
    (makedirs : FS → string → io FS unit)
    (write_text : FS → string → string → io FS unit)
    (directory : string) (st : FS) :
  let create := create_test_files FS path_exists makedirs write_text directory in
  (∀ num_files paths st', create num_files st = Done paths st' →
     paths = test_file_name directory <$> range num_files ∧
     length paths = Z.to_nat num_files ∧
     NoDup paths ∧
     (path_exists st directory = false →
      ∃ st0, makedirs st directory = Done () st0)) ∧
  (∀ num_files e st', path_exists st directory = false →
     makedirs st directory = Fails e st' →
     create num_files st = Fails e st') ∧
  (path_exists st directory = true → ∀ num_files makedirs',
     create num_files st =
     create_test_files FS path_exists makedirs' write_text directory
       num_files st) ∧
  (∀ num_files, (num_files ≤ 0)%Z →
     create num_files st =
     if path_exists st directory then Done [] st
     else match makedirs st directory with
          | Done _ st0 => Done [] st0
          | Fails e st0 => Fails e st0
          end) ∧
  (∀ (k : nat) paths st1, create (Z.of_nat k) st = Done paths st1 →
     let filename := test_file_name directory k in
     (∀ st2, write_text st1 filename (test_file_content k) = Done () st2 →
        create (Z.of_nat (S k)) st = Done (paths ++ [filename]) st2) ∧
     (∀ e st2 num_files,
        write_text st1 filename (test_file_content k) = Fails e st2 →
        k < Z.to_nat num_files →
        create num_files st = Fails e st2)).
Proof.
  intros create. split_and!.
  - intros num_files paths st' Hc. unfold create in Hc.
    rewrite create_test_files_loop in Hc.
    assert (paths = test_file_name directory <$> range num_files) as ->.
    { destruct (path_exists st directory);
        [|destruct (makedirs st directory) as [[] st0|e st0]; [|done]];
        by apply create_loop_paths in Hc. }
    split_and!; [done | | |].
    + unfold range. by rewrite length_fmap, length_seq.
    + apply NoDup_fmap_2_strong; [|apply NoDup_seq].
      intros i j _ _. apply test_file_name_inj.
    + intros Hex. rewrite Hex in Hc.
      destruct (makedirs st directory) as [[] st0|e st0]; [by exists st0|done].
  - intros num_files e st' Hex Hmk. unfold create.
    by rewrite create_test_files_loop, Hex, Hmk.
  - intros Hex num_files makedirs'. unfold create.
    by rewrite !create_test_files_loop, Hex.
  - intros num_files Hn. unfold create. rewrite create_test_files_loop.
    unfold range. replace (Z.to_nat num_files) with 0 by lia.
    destruct (path_exists st directory); [done|].
    by destruct (makedirs st directory) as [[] st0|e st0].
  - intros k paths st1 Hc filename. unfold create in *.
    rewrite create_test_files_loop in Hc.
    split.
    + intros st2 Hw. rewrite create_test_files_loop.
      destruct (if path_exists st directory then Done () st
                else makedirs st directory) as [[] st0|e st0]; [|done].
      rewrite range_S, foldl_app, Hc. simpl. fold filename. by rewrite Hw.
    + intros e st2 num_files Hw Hk. rewrite create_test_files_loop.
      destruct (if path_exists st directory then Done () st
                else makedirs st directory) as [[] st0|e0 st0]; [|done].
      rewrite (range_split k num_files Hk), foldl_app, Hc. simpl.
      fold filename. rewrite Hw. apply create_loop_fails.
Qed.

Example create_test_files_demo :
  let create := create_test_files demo_fs demo_exists demo_makedirs demo_write in
  create "docs" 2%Z [] =
    Done ["docs/file_0.txt"; "docs/file_1.txt"]
      [("docs/file_1.txt", Some "banana some random text cherry");
       ("docs/file_0.txt", Some "apple some random text banana");
       ("docs", None)] ∧
  create "" 2%Z [] = Fails "FileNotFoundError" [] ∧
  create "/proc/docs" 2%Z [] = Fails "PermissionError" [] ∧
  create "docs" 2%Z [("docs", None); ("docs/file_1.txt", None)] =
    Fails "IsADirectoryError"
      [("docs/file_0.txt", Some "apple some random text banana");
       ("docs", None); ("docs/file_1.txt", None)] ∧
  create "docs" 0%Z [("docs", None)] = Done [] [("docs", None)].
Proof. vm_compute. repeat split. Qed.

Lemma test_file_content_mod (i : nat) :
  test_file_content i = test_file_content (i `mod` 5).
Proof.
  unfold test_file_content. change (length words) with 5.
  by rewrite Nat.Div0.mod_mod, Nat.Div0.add_mod_idemp_l.
Qed.

Lemma content_has_word (i j : nat) :
  j < 5 →
  contains (words !!! j) (test_file_content i) =
  bool_decide (j = i `mod` 5 ∨ j = (i + 1) `mod` 5).
Proof.
  intros Hj. rewrite test_file_content_mod.
  rewrite <-(Nat.Div0.add_mod_idemp_l i 1 5).
  pose proof (Nat.mod_upper_bound i 5) as Hm.
  destruct (i `mod` 5) as [|[|[|[|[|m]]]]]; [..|lia];
    destruct j as [|[|[|[|[|j]]]]]; try lia; by vm_compute.
Qed.

Lemma filter_fmap_in {A B} (f : A → B) (P : B → Prop) (Q : A → Prop)
    `{∀ y, Decision (P y)} `{∀ x, Decision (Q x)} (l : list A) :
  (∀ x, x ∈ l → P (f x) ↔ Q x) →
  filter P (f <$> l) = f <$> filter Q l.
Proof.
  induction l as [|x l IH]; intros HPQ; [done|].
  rewrite fmap_cons, !filter_cons.
  assert (P (f x) ↔ Q x) as Hx by apply HPQ, list_elem_of_here.
  rewrite IH by (intros y Hy; apply HPQ; by apply elem_of_cons; right).
  destruct (decide (P (f x))), (decide (Q x)); [done | tauto | tauto | done].
Qed.

(** X18: a search over the generated corpus.  Let [create_test_files] return
    the paths [paths] and leave the file system in a state where each
    generated file reads back as the text written to it.  Then a run of
    either strategy with [n ≥ 1] workers over [paths], with a keyword list
    without repetition that holds one of the five words, lists under that
    word exactly the files whose index [i] has the word at position
    [i mod 5] or [(i + 1) mod 5] of [words], and prints no diagnostic. *)
Theorem search_generated_corpus {FS : Type}
    (path_exists : FS → string → bool)
    (makedirs : FS → string → io FS unit)
    (write_text : FS → string → string → io FS unit)
    (read_text : FS → string → read_outcome)
    (directory : string) (num_files : Z) (st st' : FS) (paths : list string)
    (keywords : list string) (s : strategy) (n : Z) (sched : list nat)
    (j : nat) :
  create_test_files FS path_exists makedirs write_text directory num_files st
    = Done paths st' →
  (∀ i, i < Z.to_nat num_files →
     read_text st' (test_file_name directory i) = Content (test_file_content i)) →
  j < 5 → NoDup keywords → words !!! j ∈ keywords → (1 ≤ n)%Z →
  ∃ r log,
    run (read_text st') keywords s paths n sched = Ok (r, log) ∧
    files_of r (words !!! j) ≡ₚ
      test_file_name directory
        <$> filter (fun i => j = i `mod` 5 ∨ j = (i + 1) `mod` 5)
                   (range num_files) ∧
    log = [].
Proof.
  intros Hcreate Hread Hj Hnd Hin Hn.
  assert (paths = test_file_name directory <$> range num_files) as Hfiles.
  { rewrite create_test_files_loop in Hcreate.
    destruct (if path_exists st directory then Done () st
              else makedirs st directory) as [[] st0|e st0]; [|done].
    by apply create_loop_paths in Hcreate. }
  assert (∀ i, i ∈ range num_files →
            read_text st' (test_file_name directory i)
            = Content (test_file_content i)) as Hcontent.
  { intros i Hi%elem_of_seq. apply Hread. lia. }
  destruct (run_Ok (read_text st') keywords s paths n sched)
    as (rs & log & Hr & _).
  destruct (run_content _ _ _ _ _ _ _ _ Hn Hr) as (_ & Hc & Hlog).
  exists (merge_results rs.*2), log. split_and!; [done | |].
  - rewrite Hc, hits_NoDup, decide_True, Hfiles by done.
    rewrite (filter_fmap_in _ _ (fun i => j = i `mod` 5 ∨ j = (i + 1) `mod` 5));
      [done|].
    intros i Hi. unfold matches. rewrite (Hcontent i Hi), content_has_word by done.
    by rewrite bool_decide_eq_true.
  - apply Permutation_nil_r. rewrite Hlog, Hfiles. unfold failures.
    rewrite bind_all_nil; [done|].
    intros p (i & -> & Hi)%list_elem_of_fmap. by rewrite (Hcontent i Hi).
Qed.

Lemma search_generated_corpus_witness :
  create_test_files demo_fs demo_exists demo_makedirs demo_write
    "test_docs" 5 []
  = Done (test_file_name "test_docs" <$> range 5)
      (rev ((fun i => (test_file_name "test_docs" i,
                       Some (test_file_content i))) <$> range 5)
       ++ [("test_docs", None)]) ∧
  (∀ i, i < Z.to_nat 5 →
     demo_read
       (rev ((fun i => (test_file_name "test_docs" i,
                        Some (test_file_content i))) <$> range 5)
        ++ [("test_docs", None)])
       (test_file_name "test_docs" i)
     = Content (test_file_content i)) ∧
  0 < 5 ∧ NoDup ["apple"; "banana"; "unknown_fruit"] ∧
  words !!! 0 ∈ ["apple"; "banana"; "unknown_fruit"] ∧ (1 ≤ 4)%Z ∧
  ∃ r log,
    run (demo_read
           (rev ((fun i => (test_file_name "test_docs" i,
                            Some (test_file_content i))) <$> range 5)
            ++ [("test_docs", None)]))
      ["apple"; "banana"; "unknown_fruit"] Processes
      (test_file_name "test_docs" <$> range 5) 4 [3; 1] = Ok (r, log) ∧
    files_of r (words !!! 0) ≡ₚ
      test_file_name "test_docs"
        <$> filter (fun i => 0 = i `mod` 5 ∨ 0 = (i + 1) `mod` 5) (range 5) ∧
    log = [].
Proof.
  set (st' := rev _ ++ _). set (paths := test_file_name "test_docs" <$> range 5).
  set (keywords := ["apple"; "banana"; "unknown_fruit"]).
  assert (create_test_files demo_fs demo_exists demo_makedirs demo_write
            "test_docs" 5 [] = Done paths st') as Hcreate
    by (vm_compute; reflexivity).
  assert (∀ i, i < Z.to_nat 5 →
            demo_read st' (test_file_name "test_docs" i)
            = Content (test_file_content i)) as Hread.
  { intros i Hi. do 5 (destruct i as [|i]; [vm_compute; reflexivity|]). lia. }
  assert (NoDup keywords) as Hnd
    by (by apply (bool_decide_unpack _); vm_compute).
  assert (words !!! 0 ∈ keywords) as Hin
    by (by apply (bool_decide_unpack _); vm_compute).
  split_and!; [exact Hcreate | exact Hread | lia | exact Hnd | exact Hin | lia |].
  apply (search_generated_corpus demo_exists demo_makedirs demo_write demo_read
           "test_docs" 5 [] st' paths keywords Processes 4 [3; 1] 0);
    [exact Hcreate | exact Hread | lia | exact Hnd | exact Hin | lia].
Defined.
